(** * live-text: the session lifecycle and the audio pipeline of the two App
    components (the transcriber and the note taker), embedded in Rocq.

    The two source files are two variants of one React component.  Both
    begin with the same two utilities, [encode] and [createBlob]; they are
    embedded once.  The component itself is embedded as explicit state
    passing over one record that holds the React state, the refs and the
    part of the browser the component talks to (promises, the microtask
    queue, and the calls made on external objects). *)

From Stdlib Require Import ZArith List Bool Lia String Ascii SpecFloat DecimalString.
From stdpp Require Import base option list.
Import ListNotations.

Local Open Scope Z_scope.

(** ** JavaScript strings

    A JavaScript string is a sequence of UTF-16 code units. *)

Definition jsstring : Type := list Z.

(** An ASCII literal as a JavaScript string. *)
Definition str (s : string) : jsstring :=
  map (fun a => Z.of_N (N_of_ascii a)) (list_ascii_of_string s).

(** ** Base-64 (the browser's [btoa], RFC 4648 with padding) *)

Module Base64.

Definition pad : Z := 61.

(** The character of a 6-bit group: A-Z, a-z, 0-9, +, /. *)
Definition char_of_sextet (n : Z) : Z :=
  if n <? 26 then 65 + n
  else if n <? 52 then 97 + (n - 26)
  else if n <? 62 then 48 + (n - 52)
  else if n =? 62 then 43
  else 47.

Definition sextet_of_char (c : Z) : option Z :=
  if (65 <=? c) && (c <=? 90) then Some (c - 65)
  else if (97 <=? c) && (c <=? 122) then Some (c - 97 + 26)
  else if (48 <=? c) && (c <=? 57) then Some (c - 48 + 52)
  else if c =? 43 then Some 62
  else if c =? 47 then Some 63
  else None.

(** Three octets give four characters; one or two trailing octets give two
    or three characters and padding. *)
Fixpoint encode_octets (bs : list Z) : jsstring :=
  match bs with
  | [] => []
  | [a] =>
      [char_of_sextet (a / 4); char_of_sextet ((a mod 4) * 16); pad; pad]
  | [a; b] =>
      [char_of_sextet (a / 4); char_of_sextet ((a mod 4) * 16 + b / 16);
       char_of_sextet ((b mod 16) * 4); pad]
  | a :: b :: c :: rest =>
      char_of_sextet (a / 4)
      :: char_of_sextet ((a mod 4) * 16 + b / 16)
      :: char_of_sextet ((b mod 16) * 4 + c / 64)
      :: char_of_sextet (c mod 64)
      :: encode_octets rest
  end.

Definition is_octet (c : Z) : bool := (0 <=? c) && (c <=? 255).

(** [btoa] takes a binary string; a code unit above 255 makes it throw
    InvalidCharacterError ([None]). *)
Definition btoa (binary : jsstring) : option jsstring :=
  if forallb is_octet binary then Some (encode_octets binary) else None.

(** The decoder the round trip is stated with: groups of four characters,
    padding only in the last group. *)
Definition decode1 (w x : Z) : option (list Z) :=
  match sextet_of_char w, sextet_of_char x with
  | Some p, Some q => Some [p * 4 + q / 16]
  | _, _ => None
  end.

Definition decode2 (w x y : Z) : option (list Z) :=
  match sextet_of_char w, sextet_of_char x, sextet_of_char y with
  | Some p, Some q, Some r => Some [p * 4 + q / 16; (q mod 16) * 16 + r / 4]
  | _, _, _ => None
  end.

Definition decode3 (w x y z : Z) : option (list Z) :=
  match sextet_of_char w, sextet_of_char x, sextet_of_char y, sextet_of_char z with
  | Some p, Some q, Some r, Some t =>
      Some [p * 4 + q / 16; (q mod 16) * 16 + r / 4; (r mod 4) * 64 + t]
  | _, _, _, _ => None
  end.

Fixpoint decode (s : jsstring) : option (list Z) :=
  match s with
  | [] => Some []
  | w :: x :: y :: z :: rest =>
      if z =? pad then
        match rest with
        | [] => if y =? pad then decode1 w x else decode2 w x y
        | _ :: _ => None
        end
      else
        match decode3 w x y z, decode rest with
        | Some bs, Some more => Some (bs ++ more)
        | _, _ => None
        end
  | _ => None
  end.

End Base64.

(** ** The audio utilities (identical in both source files) *)

Definition INPUT_SAMPLE_RATE : Z := 16000.
Definition SCRIPT_PROCESSOR_BUFFER_SIZE : Z := 4096.

(** [String.fromCharCode]: the argument is taken modulo 2^16. *)
Definition fromCharCode (c : Z) : Z := c mod 65536.

(** [encode]: the loop appends one character per byte, then [btoa]. *)
Definition encode (bytes : list Z) : option jsstring :=
  let binary := fold_left (fun binary b => binary ++ [fromCharCode b]) bytes [] in
  Base64.btoa binary.

(** A Float32Array element is an IEEE-754 binary32 datum.  The product
    [data[i] * 32768] is computed in binary64, where it is exact for every
    binary32 operand: the significand is unchanged and the exponent grows by
    15, far inside the binary64 range. *)
Definition times_32768 (x : spec_float) : spec_float :=
  match x with
  | S754_finite s m e => S754_finite s m (e + 15)
  | _ => x
  end.

(** Storing a number into an Int16Array element is ECMAScript's ToInt16:
    NaN, the infinities and the zeros give 0; otherwise the number is
    truncated toward zero and reduced modulo 2^16 into [-2^15, 2^15). *)
Definition ToInt16 (x : spec_float) : Z :=
  match x with
  | S754_finite s m e =>
      let magnitude := if 0 <=? e then Z.pos m * 2 ^ e else Z.pos m / 2 ^ (- e) in
      let int := if s then - magnitude else magnitude in
      let int16bit := int mod 65536 in
      if 32768 <=? int16bit then int16bit - 65536 else int16bit
  | _ => 0
  end.

(** [new Uint8Array(int16.buffer)]: the bytes of the buffer, two per
    element, low byte first (typed arrays use the byte order of the
    platform, little-endian on every platform browsers run on); a negative
    element is stored in two's complement. *)
Definition int16_octets (v : Z) : list Z :=
  [Z.land v 255; Z.land (Z.shiftr v 8) 255].

Definition Uint8Array_of_buffer (int16 : list Z) : list Z :=
  flat_map int16_octets int16.

Record Blob : Type := mkBlob { data : jsstring; mimeType : jsstring }.

Definition decimal (n : Z) : jsstring :=
  str (NilEmpty.string_of_uint (N.to_uint (Z.to_N n))).

Definition createBlob (input : list spec_float) : option Blob :=
  let int16 := map (fun x => ToInt16 (times_32768 x)) input in
  match encode (Uint8Array_of_buffer int16) with
  | Some d => Some (mkBlob d (str "audio/pcm;rate=" ++ decimal INPUT_SAMPLE_RATE))
  | None => None
  end.

(** *** What the specification says a frame holds

    The sample "multiplied by 32768 and truncated to a 16-bit signed
    integer", out-of-range products wrapping modulo 2^16, computed on the
    exact value of the sample as a fraction; and the little-endian bytes of
    such an integer. *)
Definition wrap16 (n : Z) : Z := (n + 32768) mod 65536 - 32768.

Definition scaled_sample (x : spec_float) : Z :=
  match x with
  | S754_finite s m e =>
      let num := (if s then -1 else 1) * Z.pos m * 2 ^ Z.max e 0 in
      let den := 2 ^ Z.max (- e) 0 in
      wrap16 (Z.quot (num * 32768) den)
  | _ => 0
  end.

Definition little_endian16 (v : Z) : list Z := [v mod 256; (v / 256) mod 256].

Definition frame_octets (input : list spec_float) : list Z :=
  flat_map little_endian16 (map scaled_sample input).

(** ** Strings of the component *)

(** ECMAScript's WhiteSpace and LineTerminator code points (all of them in
    the basic plane), the characters [String.prototype.trim] removes. *)
Definition isWhiteSpace (c : Z) : bool :=
  ((9 <=? c) && (c <=? 13)) || (c =? 32) || (c =? 160) || (c =? 5760)
  || ((8192 <=? c) && (c <=? 8202)) || (c =? 8232) || (c =? 8233)
  || (c =? 8239) || (c =? 8287) || (c =? 12288) || (c =? 65279).

Fixpoint trimStart (s : jsstring) : jsstring :=
  match s with
  | [] => []
  | c :: rest => if isWhiteSpace c then trimStart rest else s
  end.

Definition trimEnd (s : jsstring) : jsstring := rev (trimStart (rev s)).

Definition trim (s : jsstring) : jsstring := trimEnd (trimStart s).

(** A string in a condition: the empty string is falsy. *)
Definition truthy (s : jsstring) : bool :=
  match s with [] => false | _ :: _ => true end.

(** The paragraph separator, two line feeds. *)
Definition paragraph : jsstring := [10; 10].

(** [s + x] where [x] may be [undefined]. *)
Definition toString (x : option jsstring) : jsstring :=
  match x with Some t => t | None => str "undefined" end.

(** ** Data of the component *)

(** Modelled from the spec: the enum [TranscriptionStatus] of [./types],
    a file that is not among the sources; the specification lists its five
    members (idle, connecting, recording, stopping, error). *)
Inductive TranscriptionStatus : Type :=
  IDLE | CONNECTING | RECORDING | STOPPING | ERROR.

Definition status_eqb (a b : TranscriptionStatus) : bool :=
  match a, b with
  | IDLE, IDLE | CONNECTING, CONNECTING | RECORDING, RECORDING
  | STOPPING, STOPPING | ERROR, ERROR => true
  | _, _ => false
  end.

(** The argument of [handleError] is an [Error] or an [ErrorEvent]; only
    for the first does [e instanceof Error] hold. *)
Inductive JsError : Type :=
| AnError (message : jsstring)
| AnErrorEvent (message : jsstring).

Record Transcription : Type := mkTranscription { text : option jsstring }.

Record LiveServerContent : Type := mkContent {
  inputTranscription : option Transcription;
  turnComplete : bool
}.

Record LiveServerMessage : Type := mkMessage {
  serverContent : option LiveServerContent
}.

(** [process.env.API_KEY]: there may be no [process] at all (a static
    host), or the key may be undefined, or a string. *)
Inductive environment : Type :=
| NoProcess
| ProcessEnv (API_KEY : option jsstring).

Record MediaStream : Type := mkStream { getTracks : list nat }.

Inductive AudioContextState : Type := suspended | running | closed.

Record AudioContext : Type := mkContext {
  sampleRate : Z;
  state_of : AudioContextState
}.

Record ScriptProcessorNode : Type := mkProcessor { bufferSize : Z }.

Record GoogleGenAI : Type := mkAI { apiKey : jsstring }.

(** The argument of [setTranscription]: a value, or one of the three
    functions of the previous value that the sources pass.  The third reads
    [currentTranscriptionRef.current] when React runs it, not when it is
    passed. *)
Inductive updater : Type :=
| Replace (v : jsstring)
| Append (text : jsstring)
| TrimParagraph
| AppendCurrentTrim.

(** The callbacks that the component attaches to the session promise. *)
Inductive reaction : Type :=
| CloseSession
| SendRealtimeInput (media : Blob)
| ResumeStart.

Inductive settlement : Type :=
| Pending
| Fulfilled (session : nat)
| Rejected (e : JsError).

(** One call of [ai.live.connect]: the promise it returned, the reactions
    waiting on it, and the value of [status] in the closure its callbacks
    were created in. *)
Record connection : Type := mkConnection {
  outcome : settlement;
  reactions : list reaction;
  seenStatus : TranscriptionStatus
}.

Inductive job : Type := Job (r : reaction) (v : settlement).

(** The calls the component makes on objects it does not own, in the order
    they are made. *)
Inductive call : Type :=
| ConsoleError (e : JsError)
| NewGoogleGenAI (key : jsstring)
| GetUserMedia
| LiveConnect (p : nat)
| SessionClose (session : nat)
| TrackStop (track : nat)
| ProcessorConnect
| ProcessorDisconnect
| ContextClose
| SessionSend (session : nat) (media : Blob)
| GenerateContent (prompt : jsstring)
| Uncaught.

Record state : Type := mkState {
  (* useState *)
  status : TranscriptionStatus;
  transcription : jsstring;
  updates : list updater;
  error : option jsstring;
  lectureNotes : jsstring;
  isGeneratingNotes : bool;
  (* useRef *)
  currentTranscriptionRef : jsstring;
  aiRef : option GoogleGenAI;
  sessionPromiseRef : option nat;
  streamRef : option MediaStream;
  audioContextRef : option AudioContext;
  scriptProcessorRef : option ScriptProcessorNode;
  (* the browser *)
  connections : list connection;
  microtasks : list job;
  mediaRequests : list TranscriptionStatus;
  calls : list call
}.

Definition initial : state :=
  mkState IDLE [] [] None [] false [] None None None None None [] [] [] [].

(** *** Assignments *)

Definition setStatus (v : TranscriptionStatus) (s : state) : state :=
  let '(mkState _ b c d e f g h i j k l m n o p) := s in
  mkState v b c d e f g h i j k l m n o p.

Definition commit (v : jsstring) (s : state) : state :=
  let '(mkState a _ _ d e f g h i j k l m n o p) := s in
  mkState a v [] d e f g h i j k l m n o p.

(** [setTranscription] queues its argument; React applies the queue when
    it next renders the component. *)
Definition setTranscription (u : updater) (s : state) : state :=
  let '(mkState a b c d e f g h i j k l m n o p) := s in
  mkState a b (c ++ [u]) d e f g h i j k l m n o p.

Definition setError (v : option jsstring) (s : state) : state :=
  let '(mkState a b c _ e f g h i j k l m n o p) := s in
  mkState a b c v e f g h i j k l m n o p.

Definition setLectureNotes (v : jsstring) (s : state) : state :=
  let '(mkState a b c d _ f g h i j k l m n o p) := s in
  mkState a b c d v f g h i j k l m n o p.

Definition setIsGeneratingNotes (v : bool) (s : state) : state :=
  let '(mkState a b c d e _ g h i j k l m n o p) := s in
  mkState a b c d e v g h i j k l m n o p.

Definition set_currentTranscription (v : jsstring) (s : state) : state :=
  let '(mkState a b c d e f _ h i j k l m n o p) := s in
  mkState a b c d e f v h i j k l m n o p.

Definition set_ai (v : option GoogleGenAI) (s : state) : state :=
  let '(mkState a b c d e f g _ i j k l m n o p) := s in
  mkState a b c d e f g v i j k l m n o p.

Definition set_sessionPromise (v : option nat) (s : state) : state :=
  let '(mkState a b c d e f g h _ j k l m n o p) := s in
  mkState a b c d e f g h v j k l m n o p.

Definition set_stream (v : option MediaStream) (s : state) : state :=
  let '(mkState a b c d e f g h i _ k l m n o p) := s in
  mkState a b c d e f g h i v k l m n o p.

Definition set_audioContext (v : option AudioContext) (s : state) : state :=
  let '(mkState a b c d e f g h i j _ l m n o p) := s in
  mkState a b c d e f g h i j v l m n o p.

Definition set_scriptProcessor (v : option ScriptProcessorNode) (s : state) : state :=
  let '(mkState a b c d e f g h i j k _ m n o p) := s in
  mkState a b c d e f g h i j k v m n o p.

Definition set_connections (v : list connection) (s : state) : state :=
  let '(mkState a b c d e f g h i j k l _ n o p) := s in
  mkState a b c d e f g h i j k l v n o p.

Definition set_microtasks (v : list job) (s : state) : state :=
  let '(mkState a b c d e f g h i j k l m _ o p) := s in
  mkState a b c d e f g h i j k l m v o p.

Definition set_mediaRequests (v : list TranscriptionStatus) (s : state) : state :=
  let '(mkState a b c d e f g h i j k l m n _ p) := s in
  mkState a b c d e f g h i j k l m n v p.

Definition do_call (c : call) (s : state) : state :=
  let '(mkState a b c0 d e f g h i j k l m n o p) := s in
  mkState a b c0 d e f g h i j k l m n o (p ++ [c]).

(** *** Rendering *)

Definition applyUpdater (current : jsstring) (prev : jsstring) (u : updater) : jsstring :=
  match u with
  | Replace v => v
  | Append text => prev ++ text
  | TrimParagraph => trim prev ++ paragraph
  | AppendCurrentTrim => trim (prev ++ current)
  end.

(** React runs the queued updaters in order, each on the result of the one
    before; an updater that reads a ref sees the ref as it is then. *)
Definition render (s : state) : state :=
  commit (fold_left (applyUpdater (currentTranscriptionRef s)) (updates s) (transcription s)) s.

(** *** Promises *)

(** [promise.then(r)]: the reaction waits while the promise is pending and
    becomes a job at once when the promise is already settled; it never
    runs inside the call of [then]. *)
Definition promise_then (p : nat) (r : reaction) (s : state) : state :=
  match connections s !! p with
  | Some c =>
      match outcome c with
      | Pending =>
          set_connections
            (<[p := mkConnection Pending (reactions c ++ [r]) (seenStatus c)]> (connections s)) s
      | v => set_microtasks (microtasks s ++ [Job r v]) s
      end
  | None => s
  end.

(** Settling a pending promise turns its reactions into jobs, in the order
    they were attached; a settled promise stays as it is. *)
Definition settle (p : nat) (v : settlement) (s : state) : state :=
  match connections s !! p with
  | Some c =>
      match outcome c with
      | Pending =>
          set_microtasks (microtasks s ++ map (fun r => Job r v) (reactions c))
            (set_connections (<[p := mkConnection v [] (seenStatus c)]> (connections s)) s)
      | _ => s
      end
  | None => s
  end.

(** ** The teardown steps of [stopTranscription]

    The four guarded blocks have the same text in both source files. *)

(** [if (sessionPromiseRef.current) { sessionPromiseRef.current.then(session
    => session?.close()); sessionPromiseRef.current = null; }] *)
Definition release_session (s : state) : state :=
  match sessionPromiseRef s with
  | Some p => set_sessionPromise None (promise_then p CloseSession s)
  | None => s
  end.

(** [if (streamRef.current) { streamRef.current.getTracks().forEach(track =>
    track.stop()); streamRef.current = null; }] *)
Definition release_stream (s : state) : state :=
  match streamRef s with
  | Some stream =>
      set_stream None
        (fold_left (fun s track => do_call (TrackStop track) s) (getTracks stream) s)
  | None => s
  end.

(** [if (scriptProcessorRef.current) { scriptProcessorRef.current.disconnect();
    scriptProcessorRef.current = null; }] *)
Definition release_processor (s : state) : state :=
  match scriptProcessorRef s with
  | Some _ => set_scriptProcessor None (do_call ProcessorDisconnect s)
  | None => s
  end.

(** [if (audioContextRef.current && audioContextRef.current.state !==
    'closed') { audioContextRef.current.close(); audioContextRef.current =
    null; }] *)
Definition release_context (s : state) : state :=
  match audioContextRef s with
  | Some ctx =>
      match state_of ctx with
      | closed => s
      | _ => set_audioContext None (do_call ContextClose s)
      end
  | None => s
  end.

(** ** The callbacks with the same text in both source files *)

(** [onaudioprocess]: [sessionPromiseRef.current?.then(session => {
    session.sendRealtimeInput({ media: pcmBlob }); })]. *)
Definition onaudioprocess (inputData : list spec_float) (s : state) : state :=
  match createBlob inputData with
  | Some pcmBlob =>
      match sessionPromiseRef s with
      | Some p => promise_then p (SendRealtimeInput pcmBlob) s
      | None => s
      end
  | None => do_call Uncaught s
  end.

(** [onopen]; [createMediaStreamSource(streamRef.current!)] throws when
    the ref holds null, and the rest of the callback is then skipped. *)
Definition onopen (s : state) : state :=
  let s := setStatus RECORDING s in
  let s := set_audioContext (Some (mkContext INPUT_SAMPLE_RATE suspended)) s in
  match streamRef s with
  | Some _ =>
      let s := set_scriptProcessor (Some (mkProcessor SCRIPT_PROCESSOR_BUFFER_SIZE)) s in
      do_call ProcessorConnect s
  | None => do_call Uncaught s
  end.

(** The text after [await navigator.mediaDevices.getUserMedia(...)] up to
    [await sessionPromiseRef.current]; [seen] is the [status] of the closure. *)
Definition connect (seen : TranscriptionStatus) (s : state) : state :=
  let p := length (connections s) in
  let s := set_connections (connections s ++ [mkConnection Pending [] seen]) s in
  let s := do_call (LiveConnect p) s in
  let s := set_sessionPromise (Some p) s in
  promise_then p ResumeStart s.

(** ** The transcriber (first source file) *)

Module Transcriber.

Definition stopTranscription (s : state) : state :=
  let s := setStatus STOPPING s in
  let s := release_session s in
  let s := release_stream s in
  let s := release_processor s in
  let s := release_context s in
  let s :=
    if truthy (currentTranscriptionRef s)
    then set_currentTranscription [] (setTranscription AppendCurrentTrim s)
    else s in
  setStatus IDLE s.

Definition handleMessage (message : LiveServerMessage) (s : state) : state :=
  let s :=
    match serverContent message ≫= inputTranscription with
    | Some t =>
        let text := toString (text t) in
        let s := set_currentTranscription (currentTranscriptionRef s ++ text) s in
        setTranscription (Append text) s
    | None => s
    end in
  match turnComplete <$> serverContent message with
  | Some true =>
      let s := setTranscription TrimParagraph s in
      set_currentTranscription [] s
  | _ => s
  end.

Definition handleError (e : JsError) (s : state) : state :=
  let s := do_call (ConsoleError e) s in
  let errorMessage :=
    match e with
    | AnError message => message
    | AnErrorEvent _ => str "An unknown error occurred."
    end in
  let s := setError (Some (str "Error: " ++ errorMessage ++ str ". Please try again.")) s in
  stopTranscription s.

(** [startTranscription] up to its first [await]. *)
Definition startTranscription (seen : TranscriptionStatus) (env : environment)
    (s : state) : state :=
  let s := setStatus CONNECTING s in
  let s := setError None s in
  let s := setTranscription (Replace []) s in
  let s := set_currentTranscription [] s in
  match env with
  | NoProcess => handleError (AnError (str "process is not defined")) s
  | ProcessEnv API_KEY =>
      if truthy (default [] API_KEY) then
        let s := do_call (NewGoogleGenAI (default [] API_KEY)) s in
        let s := do_call GetUserMedia s in
        set_mediaRequests (mediaRequests s ++ [seen]) s
      else handleError (AnError (str "API_KEY environment variable not set.")) s
  end.

(** [startTranscription] from the first [await] to the second. *)
Definition resumeTranscription (seen : TranscriptionStatus) (stream : MediaStream)
    (s : state) : state :=
  let s := set_stream (Some stream) s in
  connect seen s.

Definition onclose (seen : TranscriptionStatus) (s : state) : state :=
  if negb (status_eqb seen STOPPING) && negb (status_eqb seen IDLE)
  then stopTranscription s
  else s.

End Transcriber.

(** ** The note taker (second source file) *)

Module NoteTaker.

Definition stopTranscription (s : state) : state :=
  let s := setStatus STOPPING s in
  let s := release_session s in
  let s := release_stream s in
  let s := release_processor s in
  let s := release_context s in
  let s := set_ai None s in
  setStatus IDLE s.

Definition notesPrompt (transcriptChunk : jsstring) : jsstring :=
  str "You are an expert note-taker. Take the following transcription from a lecture and summarize it into clean, organized, and structured lecture notes in markdown format. Focus on key points, concepts, and action items. Do not add any introductory text like "
  ++ [34] ++ str "Here are the notes:" ++ [34]
  ++ str ". Just provide the markdown. Here is the transcript:" ++ [10; 10]
  ++ [34] ++ transcriptChunk ++ [34].

(** [generateNotes] up to its [await]: the request is issued unless
    [aiRef.current] is null. *)
Definition generateNotes (transcriptChunk : jsstring) (s : state) : state :=
  match aiRef s with
  | None => s
  | Some _ =>
      let s := setIsGeneratingNotes true s in
      do_call (GenerateContent (notesPrompt transcriptChunk)) s
  end.

Definition handleMessage (message : LiveServerMessage) (s : state) : state :=
  let s :=
    match serverContent message ≫= inputTranscription with
    | Some t =>
        let text := toString (text t) in
        let s := set_currentTranscription (currentTranscriptionRef s ++ text) s in
        setTranscription (Append text) s
    | None => s
    end in
  match turnComplete <$> serverContent message with
  | Some true =>
      let textToSummarize := trim (currentTranscriptionRef s) in
      let s := if truthy textToSummarize then generateNotes textToSummarize s else s in
      let s := setTranscription TrimParagraph s in
      set_currentTranscription [] s
  | _ => s
  end.

Definition handleError (e : JsError) (s : state) : state :=
  let s := do_call (ConsoleError e) s in
  let errorMessage :=
    match e with
    | AnError message => message
    | AnErrorEvent _ => str "An unknown error occurred."
    end in
  let s := setError (Some (str "Error: " ++ errorMessage ++ str ". Please try again.")) s in
  stopTranscription s.

(** The message shown when no key is configured (69 code units, Korean). *)
Definition missingKeyMessage : jsstring :=
  [65; 80; 73; 32; 53412; 44032; 32; 54872; 44221; 50640; 32; 49444; 51221;
   46104; 51648; 32; 50506; 50520; 49845; 45768; 45796; 46; 32; 71; 105; 116;
   72; 117; 98; 32; 80; 97; 103; 101; 115; 50752; 32; 44057; 51008; 32; 51221;
   51201; 32; 54872; 44221; 50640; 49436; 45716; 32; 65; 80; 73; 32; 53412;
   47484; 32; 48324; 46020; 47196; 32; 49444; 51221; 54644; 50556; 32; 54633;
   45768; 45796; 46].

(** [startTranscription] up to its first [await]. *)
Definition startTranscription (seen : TranscriptionStatus) (env : environment)
    (s : state) : state :=
  let s := setStatus CONNECTING s in
  let s := setError None s in
  let s := setTranscription (Replace []) s in
  let s := setLectureNotes [] s in
  let s := set_currentTranscription [] s in
  let apiKey := match env with ProcessEnv API_KEY => API_KEY | NoProcess => None end in
  if truthy (default [] apiKey) then
    let s := do_call (NewGoogleGenAI (default [] apiKey)) s in
    let s := set_ai (Some (mkAI (default [] apiKey))) s in
    let s := do_call GetUserMedia s in
    set_mediaRequests (mediaRequests s ++ [seen]) s
  else
    let s := setError (Some missingKeyMessage) s in
    setStatus ERROR s.

(** [startTranscription] from the first [await] to the second;
    [aiRef.current.live] throws a TypeError when the ref holds null. *)
Definition resumeTranscription (seen : TranscriptionStatus) (stream : MediaStream)
    (s : state) : state :=
  let s := set_stream (Some stream) s in
  match aiRef s with
  | Some _ => connect seen s
  | None =>
      handleError (AnError (str "Cannot read properties of null (reading 'live')")) s
  end.

Definition onclose (seen : TranscriptionStatus) (s : state) : state :=
  if negb (status_eqb seen STOPPING) && negb (status_eqb seen IDLE)
  then stopTranscription s
  else s.

End NoteTaker.

(** ** The runtime: events, microtasks and rendering *)

Record App : Type := mkApp {
  app_stop : state -> state;
  app_message : LiveServerMessage -> state -> state;
  app_error : JsError -> state -> state;
  app_start : TranscriptionStatus -> environment -> state -> state;
  app_resume : TranscriptionStatus -> MediaStream -> state -> state;
  app_close : TranscriptionStatus -> state -> state
}.

Definition transcriber : App :=
  mkApp Transcriber.stopTranscription Transcriber.handleMessage
    Transcriber.handleError Transcriber.startTranscription
    Transcriber.resumeTranscription Transcriber.onclose.

Definition noteTaker : App :=
  mkApp NoteTaker.stopTranscription NoteTaker.handleMessage
    NoteTaker.handleError NoteTaker.startTranscription
    NoteTaker.resumeTranscription NoteTaker.onclose.

Inductive event : Type :=
| Click
| Unmount
| MediaGranted (stream : MediaStream)
| MediaDenied (e : JsError)
| Opened (p : nat)
| Message (p : nat) (m : LiveServerMessage)
| Failed (p : nat) (e : JsError)
| Closed (p : nat)
| Connected (p : nat) (session : nat)
| ConnectFailed (p : nat) (e : JsError)
| ContextRunning
| AudioProcess (inputData : list spec_float).

(** A job runs the reaction on the settled value.  A reaction attached
    with [then] alone is skipped when the promise was rejected (the
    rejection is then reported as unhandled); the rest of
    [startTranscription] goes to its [catch] block. *)
Definition run_job (app : App) (j : job) (s : state) : state :=
  match j with
  | Job CloseSession (Fulfilled session) => do_call (SessionClose session) s
  | Job (SendRealtimeInput media) (Fulfilled session) => do_call (SessionSend session media) s
  | Job ResumeStart (Fulfilled _) => s
  | Job ResumeStart (Rejected e) => app_error app e s
  | Job _ (Rejected _) => do_call Uncaught s
  | Job _ Pending => s
  end.

Fixpoint run_jobs (app : App) (fuel : nat) (s : state) : state :=
  match fuel with
  | O => s
  | S fuel =>
      match microtasks s with
      | [] => s
      | j :: rest => run_jobs app fuel (run_job app j (set_microtasks rest s))
      end
  end.

(** The microtask queue is emptied after every callback.  A job of this
    component queues at most one further job, so twice the length of the
    queue is fuel enough (see [drain_empties]). *)
Definition drain (app : App) (s : state) : state :=
  run_jobs app (2 * length (microtasks s)) s.

(** The control button: [onClick={isRecording ? stopTranscription :
    startTranscription}], [disabled={isConnecting || status === STOPPING}]. *)
Definition click (app : App) (env : environment) (s : state) : state :=
  match status s with
  | CONNECTING | STOPPING => s
  | RECORDING => app_stop app s
  | IDLE | ERROR => app_start app (status s) env s
  end.

Definition dispatch (app : App) (env : environment) (ev : event) (s : state) : state :=
  match ev with
  | Click => click app env s
  | Unmount => app_stop app s
  | MediaGranted stream =>
      match mediaRequests s with
      | seen :: rest => app_resume app seen stream (set_mediaRequests rest s)
      | [] => s
      end
  | MediaDenied e =>
      match mediaRequests s with
      | _ :: rest => app_error app e (set_mediaRequests rest s)
      | [] => s
      end
  | Opened p =>
      match connections s !! p with Some _ => onopen s | None => s end
  | Message p m =>
      match connections s !! p with Some _ => app_message app m s | None => s end
  | Failed p e =>
      match connections s !! p with Some _ => app_error app e s | None => s end
  | Closed p =>
      match connections s !! p with
      | Some c => app_close app (seenStatus c) s
      | None => s
      end
  | Connected p session => settle p (Fulfilled session) s
  | ConnectFailed p e => settle p (Rejected e) s
  | ContextRunning =>
      match audioContextRef s with
      | Some (mkContext rate suspended) => set_audioContext (Some (mkContext rate running)) s
      | _ => s
      end
  | AudioProcess inputData =>
      match scriptProcessorRef s with
      | Some _ => onaudioprocess inputData s
      | None => s
      end
  end.

(** One turn of the event loop: the callback, then the microtasks, then
    the render. *)
Definition step (app : App) (env : environment) (s : state) (ev : event) : state :=
  render (drain app (dispatch app env ev s)).

Definition run (app : App) (env : environment) (evs : list event) (s : state) : state :=
  fold_left (step app env) evs s.

(** ** Predicates used to state the properties *)

(** A byte value. *)
Definition octet (b : Z) : Prop := 0 <= b < 256.

(** A string of white space only. *)
Definition blank (s : jsstring) : Prop := Forall (fun c => isWhiteSpace c = true) s.

(** A string that does not begin with white space. *)
Definition starts_clean (s : jsstring) : Prop :=
  match s with [] => True | c :: _ => isWhiteSpace c = false end.

(** A string that does not end with white space. *)
Definition ends_clean (s : jsstring) : Prop := starts_clean (rev s).

(** ** Messages and their delivery *)

(** A message that carries one transcript fragment. *)
Definition fragment (t : jsstring) : LiveServerMessage :=
  mkMessage (Some (mkContent (Some (mkTranscription (Some t))) false)).

(** A message that only marks the end of a turn. *)
Definition turn_complete : LiveServerMessage :=
  mkMessage (Some (mkContent None true)).

(** [onmessage], followed by the render React does after the callback. *)
Definition onmessage (app : App) (s : state) (m : LiveServerMessage) : state :=
  render (app_message app m s).

(** A sequence of messages handled one after the other. *)
Definition deliver (handle : LiveServerMessage -> state -> state)
    (ms : list LiveServerMessage) (s : state) : state :=
  fold_left (fun s m => handle m s) ms s.

(** The text a message carries (none: the empty string). *)
Definition fragment_of (m : LiveServerMessage) : jsstring :=
  match serverContent m ≫= inputTranscription with
  | Some t => toString (text t)
  | None => []
  end.

(** Whether a message marks the end of a turn. *)
Definition completes (m : LiveServerMessage) : bool :=
  match turnComplete <$> serverContent m with Some true => true | _ => false end.

(** The chunks handed to [generateNotes] along a sequence of messages,
    starting with the given live buffer. *)
Fixpoint summaries (ms : list LiveServerMessage) (buffer : jsstring) : list jsstring :=
  match ms with
  | [] => []
  | m :: ms =>
      let buffer := buffer ++ fragment_of m in
      if completes m then
        (if truthy (trim buffer) then [trim buffer] else []) ++ summaries ms []
      else summaries ms buffer
  end.

(** Two states that agree everywhere except on [isGeneratingNotes] and on
    the calls made. *)
Definition same_but_notes (a b : state) : Prop :=
  status a = status b /\ transcription a = transcription b
  /\ updates a = updates b /\ error a = error b
  /\ lectureNotes a = lectureNotes b
  /\ currentTranscriptionRef a = currentTranscriptionRef b
  /\ aiRef a = aiRef b /\ sessionPromiseRef a = sessionPromiseRef b
  /\ streamRef a = streamRef b /\ audioContextRef a = audioContextRef b
  /\ scriptProcessorRef a = scriptProcessorRef b
  /\ connections a = connections b /\ microtasks a = microtasks b
  /\ mediaRequests a = mediaRequests b.

(** ** Teardown *)

(** The audio context held, if any, has not been closed. *)
Definition context_open (s : state) : Prop :=
  forall ctx, audioContextRef s = Some ctx -> state_of ctx <> closed.

(** Several calls, made in order. *)
Definition do_calls (cs : list call) (s : state) : state :=
  let '(mkState a b c d e f g h i j k l m n o p) := s in
  mkState a b c d e f g h i j k l m n o (p ++ cs).

(** The releases that [stopTranscription] performs before it returns: one
    [stop] per track of the stream held, then the [disconnect] of the
    processor held, then the [close] of the context held. *)
Definition teardown_calls (s : state) : list call :=
  match streamRef s with
  | Some stream => map TrackStop (getTracks stream)
  | None => []
  end
  ++ match scriptProcessorRef s with Some _ => [ProcessorDisconnect] | None => [] end
  ++ match audioContextRef s with Some _ => [ContextClose] | None => [] end.

(** The call a reaction makes when it runs on a fulfilled promise. *)
Definition fulfilled_calls (session : nat) (r : reaction) : list call :=
  match r with
  | CloseSession => [SessionClose session]
  | SendRealtimeInput media => [SessionSend session media]
  | ResumeStart => []
  end.

(** A deployment with a key, and the state of a variant that is recording:
    the button was clicked, the microphone granted (one track, 7), the
    connection opened and its promise fulfilled with session 5. *)
Definition with_key : environment := ProcessEnv (Some (str "key")).

Definition recording (app : App) : state :=
  run app with_key
    [Click; MediaGranted (mkStream [7%nat]); Opened 0; Connected 0 5; ContextRunning]
    initial.

(** ** Errors and keys *)

(** The text [handleError] shows for an error. *)
Definition errorMessage_of (e : JsError) : jsstring :=
  match e with
  | AnError message => message
  | AnErrorEvent _ => str "An unknown error occurred."
  end.

(** No usable key: no [process], no [API_KEY], or an empty one. *)
Definition key_absent (env : environment) : Prop :=
  match env with
  | NoProcess => True
  | ProcessEnv API_KEY => truthy (default [] API_KEY) = false
  end.

(** The error the transcriber's [try] block throws without a key. *)
Definition missing_key_error (env : environment) : JsError :=
  match env with
  | NoProcess => AnError (str "process is not defined")
  | ProcessEnv _ => AnError (str "API_KEY environment variable not set.")
  end.

(** [String.prototype.includes]. *)
Fixpoint startsWith (needle hay : jsstring) : bool :=
  match needle, hay with
  | [], _ => true
  | n :: needle, h :: hay => (n =? h) && startsWith needle hay
  | _ :: _, [] => false
  end.

Fixpoint includes (needle hay : jsstring) : bool :=
  startsWith needle hay
  || match hay with [] => false | _ :: hay => includes needle hay end.

(** Calls that acquire a device or open a session. *)
Definition acquires (c : call) : bool :=
  match c with
  | GetUserMedia | LiveConnect _ | NewGoogleGenAI _ => true
  | _ => false
  end.

(** ** Audio frames *)

(** The Blob [createBlob] makes of a block of samples (see
    [createBlob_frame]). *)
Definition frame_blob (input : list spec_float) : Blob :=
  mkBlob (Base64.encode_octets (frame_octets input))
    (str "audio/pcm;rate=" ++ decimal INPUT_SAMPLE_RATE).

(** The session promise [p] is held and pending, with the given reactions
    waiting on it; no job is queued and a processor is attached. *)
Definition awaiting_session (p : nat) (waiting : list reaction)
    (seen : TranscriptionStatus) (s : state) : Prop :=
  sessionPromiseRef s = Some p
  /\ connections s !! p = Some (mkConnection Pending waiting seen)
  /\ microtasks s = []
  /\ is_Some (scriptProcessorRef s).

(** The session promise [p] is held and fulfilled with the given session;
    no job is queued and a processor is attached. *)
Definition in_session (p session : nat) (s : state) : Prop :=
  sessionPromiseRef s = Some p
  /\ (exists seen, connections s !! p = Some (mkConnection (Fulfilled session) [] seen))
  /\ microtasks s = []
  /\ is_Some (scriptProcessorRef s).

(** ** Invariants of the event loop *)

(** The four fields the transcript invariant reads. *)
Definition view (s : state) : jsstring * list updater * jsstring * option AudioContext :=
  (transcription s, updates s, currentTranscriptionRef s, audioContextRef s).

(** The transcript React will show ends with the live buffer. *)
Definition buffer_shown (s : state) : Prop :=
  exists before, transcription (render s) = before ++ currentTranscriptionRef s.

(** Inside a turn of the event loop: the context held is open, and either
    the live buffer is empty, or no queued updater reads it and the
    transcript to be shown ends with it. *)
Definition consistent (s : state) : Prop :=
  context_open s
  /\ (currentTranscriptionRef s = []
      \/ (~ In AppendCurrentTrim (updates s) /\ buffer_shown s)).

(** Between two turns of the event loop: nothing is pending, the context
    held is open and the transcript ends with the live buffer. *)
Definition settled (s : state) : Prop :=
  updates s = [] /\ microtasks s = [] /\ context_open s
  /\ exists before, transcription s = before ++ currentTranscriptionRef s.

(** The fuel a job needs: itself and the job it may queue. *)
Definition job_weight (j : job) : nat :=
  match j with
  | Job ResumeStart (Rejected _) => 2
  | _ => 1
  end.

Definition queue_weight (q : list job) : nat :=
  fold_right (fun j n => (job_weight j + n)%nat) 0%nat q.

(** Every closure that [startTranscription] has created, waiting for the
    microphone or attached to a connection, saw the status Idle; and the
    status is Error only in a deployment without a key. *)
Definition started_from_idle (env : environment) (s : state) : Prop :=
  Forall (fun c => seenStatus c = IDLE) (connections s)
  /\ Forall (fun seen => seen = IDLE) (mediaRequests s)
  /\ (status s = ERROR -> key_absent env).

(** A variant whose connection has opened while its promise is still
    pending. *)
Definition opened (app : App) : state :=
  run app with_key [Click; MediaGranted (mkStream [7%nat]); Opened 0] initial.

(** Two samples: 0.5 and -1. *)
Definition half : spec_float := S754_finite false 1 (-1).
Definition minus_one : spec_float := S754_finite true 1 0.

(** ** More on frames *)

(** A character of the base-64 alphabet, or the padding character. *)
Definition base64_char (c : Z) : Prop :=
  c = Base64.pad \/ is_Some (Base64.sextet_of_char c).

(** The scaled value of a sample, truncated toward zero, before it is
    reduced to 16 bits. *)
Definition truncated_product (x : spec_float) : Z :=
  match x with
  | S754_finite s m e =>
      Z.quot ((if s then -1 else 1) * Z.pos m * 2 ^ Z.max e 0 * 32768)
        (2 ^ Z.max (- e) 0)
  | _ => 0
  end.

(** A variant that has the microphone and awaits its connection. *)
Definition connecting (app : App) : state :=
  run app with_key [Click; MediaGranted (mkStream [7%nat])] initial.

(** ** Turns *)

(** The messages of one turn: its fragments, then the turn-complete mark. *)
Definition turn (fs : list jsstring) : list LiveServerMessage :=
  map fragment fs ++ [turn_complete].

(** ** A whole session *)

(** The events of a recording on connection 0: messages, audio blocks, and
    the context starting to run. *)
Definition recording_event (ev : event) : Prop :=
  match ev with
  | Message 0 _ | AudioProcess _ | ContextRunning => True
  | _ => False
  end.

(** A recording: the stream, the session promise (fulfilled), a processor
    and an open context are held, and no job is queued. *)
Definition in_recording (stream : MediaStream) (session : nat) (s : state) : Prop :=
  status s = RECORDING
  /\ streamRef s = Some stream
  /\ sessionPromiseRef s = Some 0%nat
  /\ connections s = [mkConnection (Fulfilled session) [] IDLE]
  /\ is_Some (scriptProcessorRef s)
  /\ is_Some (audioContextRef s)
  /\ context_open s
  /\ microtasks s = [].

(** ** The rest of [generateNotes] (second source file)

    After the [await], when the request succeeds: the response text is
    appended to the notes with a separator and the whole is trimmed, and
    [isGeneratingNotes] is reset.  The function passed to [setLectureNotes]
    reads nothing but the previous notes, so applying it at once gives what
    React gives when it renders. *)
Definition notesGenerated (text : option jsstring) (s : state) : state :=
  let notesChunk := toString text in
  let s := setLectureNotes (trim (lectureNotes s ++ notesChunk ++ paragraph)) s in
  setIsGeneratingNotes false s.

(** A string without white space at either end. *)
Definition clean (s : jsstring) : Prop := starts_clean s /\ ends_clean s.

(** * Properties *)

(** ** Base-64 *)

Module Base64Facts.
Import Base64.

Lemma sextet_of_char_of_sextet (n : Z) :
  0 <= n < 64 -> sextet_of_char (char_of_sextet n) = Some n.
Proof.
  intros Hn. unfold char_of_sextet.
  destruct (Z.ltb_spec n 26); [|destruct (Z.ltb_spec n 52);
    [|destruct (Z.ltb_spec n 62); [|destruct (Z.eqb_spec n 62)]]];
    unfold sextet_of_char;
    repeat match goal with
           | |- context [?a <=? ?b] => destruct (Z.leb_spec a b); simpl; try lia
           | |- context [?a =? ?b] => destruct (Z.eqb_spec a b); simpl; try lia
           end;
    f_equal; lia.
Qed.

Lemma char_of_sextet_not_pad (n : Z) :
  0 <= n -> (char_of_sextet n =? pad) = false.
Proof.
  intros Hn. apply Z.eqb_neq. unfold char_of_sextet, pad.
  repeat match goal with
         | |- context [?a <? ?b] => destruct (Z.ltb_spec a b)
         | |- context [?a =? ?b] => destruct (Z.eqb_spec a b)
         end; lia.
Qed.

Ltac sextets :=
  rewrite ?sextet_of_char_of_sextet
    by (Z.to_euclidean_division_equations; lia).

Lemma decode3_encode (a b c : Z) :
  octet a -> octet b -> octet c ->
  decode3 (char_of_sextet (a / 4)) (char_of_sextet ((a mod 4) * 16 + b / 16))
    (char_of_sextet ((b mod 16) * 4 + c / 64)) (char_of_sextet (c mod 64))
  = Some [a; b; c].
Proof.
  unfold octet, decode3. intros Ha Hb Hc. sextets.
  do 2 f_equal; [|f_equal; [|f_equal]];
    Z.to_euclidean_division_equations; lia.
Qed.

Lemma decode2_encode (a b : Z) :
  octet a -> octet b ->
  decode2 (char_of_sextet (a / 4)) (char_of_sextet ((a mod 4) * 16 + b / 16))
    (char_of_sextet ((b mod 16) * 4))
  = Some [a; b].
Proof.
  unfold octet, decode2. intros Ha Hb. sextets.
  do 2 f_equal; [|f_equal]; Z.to_euclidean_division_equations; lia.
Qed.

Lemma decode1_encode (a : Z) :
  octet a ->
  decode1 (char_of_sextet (a / 4)) (char_of_sextet ((a mod 4) * 16)) = Some [a].
Proof.
  unfold octet, decode1. intros Ha. sextets.
  do 2 f_equal; Z.to_euclidean_division_equations; lia.
Qed.

Lemma decode_encode_bounded (n : nat) (bs : list Z) :
  (length bs <= n)%nat -> Forall octet bs -> decode (encode_octets bs) = Some bs.
Proof.
  revert bs. induction n as [|n IH]; intros bs Hlen Hbs.
  - destruct bs; [reflexivity | simpl in Hlen; lia].
  - destruct bs as [|a [|b [|c rest]]]; [reflexivity| | |].
    + inversion_clear Hbs. cbn [encode_octets decode]. change (pad =? pad) with true. cbv iota.
      now apply decode1_encode.
    + inversion_clear Hbs as [|? ? Ha Hr]. inversion_clear Hr.
      cbn [encode_octets decode]. change (pad =? pad) with true. cbv iota. unfold octet in *.
      rewrite char_of_sextet_not_pad by (Z.to_euclidean_division_equations; lia).
      now apply decode2_encode.
    + inversion_clear Hbs as [|? ? Ha Hr]. inversion_clear Hr as [|? ? Hb Hr'].
      inversion_clear Hr' as [|? ? Hc Hrest].
      cbn [encode_octets decode].
      rewrite char_of_sextet_not_pad
        by (unfold octet in *; Z.to_euclidean_division_equations; lia).
      rewrite decode3_encode by assumption.
      rewrite IH by (simpl in Hlen; auto with lia). reflexivity.
Qed.

Lemma decode_encode (bs : list Z) :
  Forall octet bs -> decode (encode_octets bs) = Some bs.
Proof. apply (decode_encode_bounded (length bs)). lia. Qed.

End Base64Facts.

(** ** The audio frame *)

Lemma encode_binary (bytes : list Z) (acc : jsstring) :
  fold_left (fun binary b => binary ++ [fromCharCode b]) bytes acc
  = acc ++ map fromCharCode bytes.
Proof.
  revert acc. induction bytes as [|b bytes IH]; intros acc; simpl.
  - now rewrite app_nil_r.
  - rewrite IH, <- app_assoc. reflexivity.
Qed.

Lemma encode_octets_ok (bytes : list Z) :
  Forall octet bytes -> encode bytes = Some (Base64.encode_octets bytes).
Proof.
  intros Hb. unfold encode, Base64.btoa. rewrite encode_binary. simpl.
  assert (Hid : map fromCharCode bytes = bytes).
  { induction Hb as [|b bs Hb _ IH]; simpl; [reflexivity|].
    rewrite IH. f_equal. unfold fromCharCode, octet in *.
    apply Z.mod_small. lia. }
  rewrite Hid.
  assert (Hall : forallb Base64.is_octet bytes = true).
  { apply forallb_forall. intros b Hin.
    rewrite Forall_forall in Hb. apply list_elem_of_In in Hin.
    specialize (Hb b Hin). unfold Base64.is_octet, octet in *.
    apply andb_true_iff. split; apply Z.leb_le; lia. }
  now rewrite Hall.
Qed.

Lemma int16_octets_little_endian (v : Z) : int16_octets v = little_endian16 v.
Proof.
  unfold int16_octets, little_endian16.
  change 255 with (Z.ones 8). rewrite !Z.land_ones by lia.
  rewrite Z.shiftr_div_pow2 by lia. reflexivity.
Qed.

Lemma little_endian16_octets (v : Z) : Forall octet (little_endian16 v).
Proof.
  unfold little_endian16, octet.
  repeat constructor; apply Z.mod_pos_bound; lia.
Qed.

Lemma wrap16_signed (n : Z) :
  wrap16 n = if 32768 <=? n mod 65536 then n mod 65536 - 65536 else n mod 65536.
Proof.
  unfold wrap16. destruct (Z.leb_spec 32768 (n mod 65536));
    Z.to_euclidean_division_equations; lia.
Qed.

Lemma scaled_magnitude (m : positive) (e : Z) :
  Z.pos m * 2 ^ Z.max e 0 * 32768 / 2 ^ Z.max (- e) 0
  = if 0 <=? e + 15 then Z.pos m * 2 ^ (e + 15) else Z.pos m / 2 ^ (- (e + 15)).
Proof.
  change 32768 with (2 ^ 15).
  destruct (Z.leb_spec 0 (e + 15)) as [Hs|Hs].
  - destruct (Z.le_gt_cases 0 e) as [He|He].
    + rewrite Z.max_l, Z.max_r by lia. change (2 ^ 0) with 1.
      rewrite Z.div_1_r, <- Z.mul_assoc, <- Z.pow_add_r by lia. reflexivity.
    + rewrite Z.max_r, Z.max_l by lia. change (2 ^ 0) with 1.
      rewrite Z.mul_1_r.
      replace (2 ^ 15) with (2 ^ (e + 15) * 2 ^ (- e))
        by (rewrite <- Z.pow_add_r by lia; f_equal; lia).
      rewrite Z.mul_assoc, Z.div_mul; [reflexivity|].
      apply Z.pow_nonzero; lia.
  - rewrite Z.max_r, Z.max_l by lia. change (2 ^ 0) with 1. rewrite Z.mul_1_r.
    replace (2 ^ (- e)) with (2 ^ (- (e + 15)) * 2 ^ 15)
      by (rewrite <- Z.pow_add_r by lia; f_equal; lia).
    rewrite Z.div_mul_cancel_r; [reflexivity| |]; apply Z.pow_nonzero; lia.
Qed.

Lemma ToInt16_scaled (x : spec_float) : ToInt16 (times_32768 x) = scaled_sample x.
Proof.
  destruct x as [s|s| |s m e]; try reflexivity.
  unfold times_32768, ToInt16, scaled_sample.
  cbv zeta. rewrite wrap16_signed.
  assert (Hden : 0 < 2 ^ Z.max (- e) 0) by (apply Z.pow_pos_nonneg; lia).
  assert (Hnum : 0 <= Z.pos m * 2 ^ Z.max e 0 * 32768).
  { apply Z.mul_nonneg_nonneg; [|lia]. apply Z.mul_nonneg_nonneg; [lia|].
    apply Z.pow_nonneg; lia. }
  assert (Hq : Z.quot ((if s then -1 else 1) * Z.pos m * 2 ^ Z.max e 0 * 32768)
                 (2 ^ Z.max (- e) 0)
               = if s then - (Z.pos m * 2 ^ Z.max e 0 * 32768 / 2 ^ Z.max (- e) 0)
                 else Z.pos m * 2 ^ Z.max e 0 * 32768 / 2 ^ Z.max (- e) 0).
  { destruct s.
    - replace (-1 * Z.pos m * 2 ^ Z.max e 0 * 32768)
        with (- (Z.pos m * 2 ^ Z.max e 0 * 32768)) by lia.
      rewrite Z.quot_opp_l by lia. rewrite Z.quot_div_nonneg by lia. reflexivity.
    - rewrite Z.mul_1_l. apply Z.quot_div_nonneg; lia. }
  rewrite Hq, scaled_magnitude. reflexivity.
Qed.

Lemma buffer_frame_octets (input : list spec_float) :
  Uint8Array_of_buffer (map (fun x => ToInt16 (times_32768 x)) input)
  = frame_octets input.
Proof.
  unfold Uint8Array_of_buffer, frame_octets.
  induction input as [|x input IH]; simpl; [reflexivity|].
  rewrite IH, ToInt16_scaled.
  change (int16_octets (scaled_sample x) ++ flat_map little_endian16 (map scaled_sample input)
          = little_endian16 (scaled_sample x) ++ flat_map little_endian16 (map scaled_sample input)).
  now rewrite int16_octets_little_endian.
Qed.

Lemma frame_octets_octet (input : list spec_float) :
  Forall octet (frame_octets input).
Proof.
  unfold frame_octets. induction input as [|x input IH]; simpl; [constructor|].
  repeat constructor; try (apply Z.mod_pos_bound; lia). exact IH.
Qed.

Lemma frame_octets_length (input : list spec_float) :
  length (frame_octets input) = (2 * length input)%nat.
Proof.
  unfold frame_octets. induction input as [|x input IH]; simpl; [reflexivity|].
  simpl in IH. rewrite IH. lia.
Qed.

Lemma createBlob_total (input : list spec_float) :
  createBlob input
  = Some (mkBlob (Base64.encode_octets (frame_octets input))
            (str "audio/pcm;rate=" ++ decimal INPUT_SAMPLE_RATE)).
Proof.
  unfold createBlob. cbv zeta.
  now rewrite buffer_frame_octets, (encode_octets_ok _ (frame_octets_octet input)).
Qed.

(** C3.  For every block of samples, [createBlob] returns a Blob; decoding
    the base-64 text of its [data] field gives exactly the little-endian
    bytes of the 16-bit integers obtained by multiplying each sample by
    32768 and truncating, out-of-range products wrapping modulo 2^16; there
    is one such integer, hence two bytes, per input sample. *)
Theorem createBlob_round_trip (input : list spec_float) :
  exists blob,
    createBlob input = Some blob
    /\ Base64.decode (data blob) = Some (frame_octets input)
    /\ length (map scaled_sample input) = length input
    /\ length (frame_octets input) = (2 * length input)%nat.
Proof.
  eexists. split; [apply createBlob_total|]. simpl data.
  split; [apply Base64Facts.decode_encode, frame_octets_octet|].
  split; [apply length_map | apply frame_octets_length].
Qed.

(** ** Trimming *)

Lemma trimStart_split (s : jsstring) :
  exists w, s = w ++ trimStart s /\ blank w.
Proof.
  induction s as [|c s [w [Hs Hw]]]; [exists []; split; [reflexivity|constructor]|].
  simpl. destruct (isWhiteSpace c) eqn:Hc.
  - exists (c :: w). split; [simpl; congruence|constructor; assumption].
  - exists []. split; [reflexivity|constructor].
Qed.

Lemma trimStart_clean (s : jsstring) : starts_clean (trimStart s).
Proof.
  induction s as [|c s IH]; simpl; [exact I|].
  destruct (isWhiteSpace c) eqn:Hc; [exact IH | exact Hc].
Qed.

Lemma trimStart_of_clean (s : jsstring) : starts_clean s -> trimStart s = s.
Proof. destruct s as [|c s]; simpl; [reflexivity|]. now intros ->. Qed.

Lemma trimStart_blank (w s : jsstring) : blank w -> trimStart (w ++ s) = trimStart s.
Proof. induction 1 as [|c w Hc _ IH]; simpl; [reflexivity|]. now rewrite Hc. Qed.

Lemma trimStart_app (s t : jsstring) :
  starts_clean s -> s <> [] -> trimStart (s ++ t) = s ++ t.
Proof. destruct s as [|c s]; simpl; [congruence|]. now intros ->. Qed.

Lemma blank_rev (w : jsstring) : blank w -> blank (rev w).
Proof. apply List.Forall_rev. Qed.

Lemma trimEnd_split (s : jsstring) : exists w, s = trimEnd s ++ w /\ blank w.
Proof.
  destruct (trimStart_split (rev s)) as [w [Hs Hw]].
  exists (rev w). split; [|now apply blank_rev].
  unfold trimEnd. rewrite <- rev_app_distr, <- Hs. now rewrite rev_involutive.
Qed.

Lemma trimEnd_clean (s : jsstring) : ends_clean (trimEnd s).
Proof. unfold ends_clean, trimEnd. rewrite rev_involutive. apply trimStart_clean. Qed.

Lemma trimEnd_of_clean (s : jsstring) : ends_clean s -> trimEnd s = s.
Proof.
  unfold ends_clean, trimEnd. intros H. rewrite trimStart_of_clean by assumption.
  apply rev_involutive.
Qed.

Lemma trimEnd_blank (s w : jsstring) : blank w -> trimEnd (s ++ w) = trimEnd s.
Proof.
  intros Hw. unfold trimEnd. rewrite rev_app_distr.
  now rewrite trimStart_blank by now apply blank_rev.
Qed.

Lemma trimEnd_keeps_start (s : jsstring) : starts_clean s -> starts_clean (trimEnd s).
Proof.
  intros Hs. destruct (trimEnd_split s) as [w [Heq _]].
  destruct (trimEnd s) as [|c r]; [exact I|].
  rewrite Heq in Hs. exact Hs.
Qed.

Lemma trim_starts_clean (s : jsstring) : starts_clean (trim s).
Proof. apply trimEnd_keeps_start, trimStart_clean. Qed.

Lemma trim_ends_clean (s : jsstring) : ends_clean (trim s).
Proof. apply trimEnd_clean. Qed.

Lemma trim_of_clean (s : jsstring) : starts_clean s -> ends_clean s -> trim s = s.
Proof.
  intros Hs He. unfold trim. rewrite trimStart_of_clean by assumption.
  now apply trimEnd_of_clean.
Qed.

Lemma trim_idempotent (s : jsstring) : trim (trim s) = trim s.
Proof. apply trim_of_clean; [apply trim_starts_clean | apply trim_ends_clean]. Qed.

Lemma trim_blank_suffix (s w : jsstring) :
  starts_clean s -> ends_clean s -> blank w -> trim (s ++ w) = s.
Proof.
  intros Hs He Hw. unfold trim. destruct s as [|c s].
  - simpl. replace (trimStart w) with (@nil Z); [reflexivity|].
    rewrite <- (app_nil_r w), trimStart_blank by assumption. reflexivity.
  - rewrite trimStart_app by (assumption || discriminate).
    rewrite trimEnd_blank by assumption. now apply trimEnd_of_clean.
Qed.

Lemma blank_paragraph : blank paragraph.
Proof. repeat constructor. Qed.

Lemma trim_paragraph (s : jsstring) : trim (trim s ++ paragraph) = trim s.
Proof.
  apply trim_blank_suffix;
    [apply trim_starts_clean | apply trim_ends_clean | apply blank_paragraph].
Qed.

Lemma ends_clean_last (s : jsstring) (c : Z) :
  ends_clean (s ++ [c]) -> isWhiteSpace c = false.
Proof. unfold ends_clean. rewrite rev_app_distr. simpl. trivial. Qed.

(** ** Messages *)

Ltac destruct_message m :=
  let sc := fresh "sc" in let it := fresh "it" in let tc := fresh "tc" in
  destruct m as [sc]; destruct sc as [[it tc]|];
  [destruct it as [[?]|]; destruct tc|].

Lemma Transcriber_handleMessage_eq (m : LiveServerMessage) (s : state) :
  Transcriber.handleMessage m s
  = let s1 := match serverContent m ≫= inputTranscription with
              | Some _ =>
                  setTranscription (Append (fragment_of m))
                    (set_currentTranscription (currentTranscriptionRef s ++ fragment_of m) s)
              | None => s
              end in
    if completes m then set_currentTranscription [] (setTranscription TrimParagraph s1) else s1.
Proof.
  unfold Transcriber.handleMessage, fragment_of, completes.
  destruct_message m; reflexivity.
Qed.

Lemma handleMessage_agree (m : LiveServerMessage) (a b : state) :
  same_but_notes a b ->
  same_but_notes (Transcriber.handleMessage m a) (NoteTaker.handleMessage m b).
Proof.
  destruct a, b. unfold same_but_notes. simpl.
  intros (? & ? & ? & ? & ? & ? & ? & ? & ? & ? & ? & ? & ? & ?). subst.
  unfold Transcriber.handleMessage, NoteTaker.handleMessage, NoteTaker.generateNotes.
  destruct_message m; simpl;
    repeat match goal with
           | |- context [truthy ?x] => destruct (truthy x)
           | |- context [match ?x with Some _ => _ | None => _ end] => destruct x
           end; simpl; repeat split; reflexivity.
Qed.

Lemma deliver_agree (ms : list LiveServerMessage) (a b : state) :
  same_but_notes a b ->
  same_but_notes (deliver Transcriber.handleMessage ms a)
    (deliver NoteTaker.handleMessage ms b).
Proof.
  revert a b. induction ms as [|m ms IH]; intros a b Hab; simpl; [exact Hab|].
  apply IH, handleMessage_agree, Hab.
Qed.

Lemma same_but_notes_refl (s : state) : same_but_notes s s.
Proof. unfold same_but_notes. repeat split; reflexivity. Qed.

Lemma same_but_notes_render (a b : state) :
  same_but_notes a b -> transcription (render a) = transcription (render b).
Proof.
  destruct a, b. unfold same_but_notes. simpl.
  intros (? & ? & ? & ? & ? & ? & ? & ? & ? & ? & ? & ? & ? & ?). now subst.
Qed.

Lemma Transcriber_handleMessage_calls (m : LiveServerMessage) (s : state) :
  calls (Transcriber.handleMessage m s) = calls s.
Proof.
  destruct s. unfold Transcriber.handleMessage. destruct_message m; reflexivity.
Qed.

Lemma deliver_Transcriber_calls (ms : list LiveServerMessage) (s : state) :
  calls (deliver Transcriber.handleMessage ms s) = calls s.
Proof.
  revert s. induction ms as [|m ms IH]; intros s; simpl; [reflexivity|].
  now rewrite IH, Transcriber_handleMessage_calls.
Qed.

(** What one message does to the note taker's buffer, client and calls. *)
Lemma NoteTaker_handleMessage_notes (m : LiveServerMessage) (s : state) :
  let s' := NoteTaker.handleMessage m s in
  let buffer := currentTranscriptionRef s ++ fragment_of m in
  aiRef s' = aiRef s
  /\ currentTranscriptionRef s' = (if completes m then [] else buffer)
  /\ calls s'
     = calls s
       ++ (if completes m && truthy (trim buffer) && bool_decide (is_Some (aiRef s))
           then [GenerateContent (NoteTaker.notesPrompt (trim buffer))] else []).
Proof.
  destruct s. unfold NoteTaker.handleMessage, NoteTaker.generateNotes, fragment_of, completes.
  destruct_message m; simpl; rewrite ?app_nil_r;
    repeat match goal with
           | |- context [truthy ?x] => destruct (truthy x)
           | |- context [match ?x with Some _ => _ | None => _ end] => destruct x
           end; simpl; rewrite ?app_nil_r; repeat split; reflexivity.
Qed.

Lemma deliver_NoteTaker_calls (ms : list LiveServerMessage) (s : state) :
  calls (deliver NoteTaker.handleMessage ms s)
  = calls s
    ++ (if bool_decide (is_Some (aiRef s))
        then map (fun chunk => GenerateContent (NoteTaker.notesPrompt chunk))
               (summaries ms (currentTranscriptionRef s))
        else []).
Proof.
  revert s. induction ms as [|m ms IH]; intros s; simpl.
  - destruct (bool_decide _); now rewrite app_nil_r.
  - destruct (NoteTaker_handleMessage_notes m s) as (Hai & Hcur & Hcalls).
    rewrite IH, Hai, Hcur, Hcalls, <- app_assoc. f_equal.
    destruct (bool_decide (is_Some (aiRef s))); rewrite ?andb_false_r, ?andb_true_r;
      destruct (completes m); simpl; try reflexivity.
    destruct (truthy _); reflexivity.
Qed.

Lemma summaries_nonempty (ms : list LiveServerMessage) (buffer : jsstring) :
  Forall (fun chunk => chunk <> [] /\ trim chunk = chunk) (summaries ms buffer).
Proof.
  revert buffer. induction ms as [|m ms IH]; intros buffer; simpl; [constructor|].
  destruct (completes m); [|apply IH].
  apply Forall_app. split; [|apply IH].
  destruct (trim (buffer ++ fragment_of m)) eqn:Ht; simpl; constructor; [|constructor].
  split; [discriminate|]. rewrite <- Ht. apply trim_idempotent.
Qed.

(** C10.  For every sequence of server messages and every starting state,
    the [handleMessage] of the transcriber and that of the note taker lead
    to the same transcript (before and after rendering), the same queue of
    transcript updates and the same live buffer, and agree on every other
    field except the two the note taker's summarization touches: the
    transcriber makes no call at all, and the note taker makes exactly one
    summarization request per turn completion whose trimmed buffer is not
    empty (none when it has no client). *)
Theorem handleMessage_variants_agree (ms : list LiveServerMessage) (s : state) :
  let a := deliver Transcriber.handleMessage ms s in
  let b := deliver NoteTaker.handleMessage ms s in
  same_but_notes a b
  /\ transcription (render a) = transcription (render b)
  /\ currentTranscriptionRef (render a) = currentTranscriptionRef (render b)
  /\ calls a = calls s
  /\ calls b
     = calls s
       ++ (if bool_decide (is_Some (aiRef s))
           then map (fun chunk => GenerateContent (NoteTaker.notesPrompt chunk))
                  (summaries ms (currentTranscriptionRef s))
           else [])
  /\ Forall (fun chunk => chunk <> [] /\ trim chunk = chunk)
       (summaries ms (currentTranscriptionRef s)).
Proof.
  cbv zeta.
  pose proof (deliver_agree ms s s (same_but_notes_refl s)) as Hab.
  split; [exact Hab|].
  split; [now apply same_but_notes_render|].
  split.
  { destruct Hab as (_ & _ & _ & _ & _ & Hcur & _).
    destruct (deliver Transcriber.handleMessage ms s),
      (deliver NoteTaker.handleMessage ms s). exact Hcur. }
  split; [apply deliver_Transcriber_calls|].
  split; [apply deliver_NoteTaker_calls | apply summaries_nonempty].
Qed.

(** One message, then a render, from a state with nothing pending. *)
Lemma onmessage_transcriber (s : state) (m : LiveServerMessage) :
  updates s = [] ->
  onmessage transcriber s m
  = set_currentTranscription
      (if completes m then [] else currentTranscriptionRef s ++ fragment_of m)
      (commit (if completes m
               then trim (transcription s ++ fragment_of m) ++ paragraph
               else transcription s ++ fragment_of m) s).
Proof.
  destruct s. simpl. intros ->.
  unfold onmessage, transcriber, app_message, Transcriber.handleMessage,
    fragment_of, completes.
  destruct_message m; simpl; rewrite ?app_nil_r; reflexivity.
Qed.

Lemma onmessage_noteTaker_view (s : state) (m : LiveServerMessage) :
  updates s = [] ->
  let s' := onmessage noteTaker s m in
  transcription s'
  = (if completes m
     then trim (transcription s ++ fragment_of m) ++ paragraph
     else transcription s ++ fragment_of m)
  /\ currentTranscriptionRef s'
     = (if completes m then [] else currentTranscriptionRef s ++ fragment_of m)
  /\ updates s' = [].
Proof.
  destruct s. simpl. intros ->.
  unfold onmessage, noteTaker, app_message, NoteTaker.handleMessage,
    NoteTaker.generateNotes, fragment_of, completes.
  destruct_message m; simpl; rewrite ?app_nil_r;
    repeat match goal with
           | |- context [truthy ?x] => destruct (truthy x)
           | |- context [match ?x with Some _ => _ | None => _ end] => destruct x
           end; simpl; repeat split; reflexivity.
Qed.

Lemma onmessage_view (app : App) (s : state) (m : LiveServerMessage) :
  app = transcriber \/ app = noteTaker ->
  updates s = [] ->
  let s' := onmessage app s m in
  transcription s'
  = (if completes m
     then trim (transcription s ++ fragment_of m) ++ paragraph
     else transcription s ++ fragment_of m)
  /\ currentTranscriptionRef s'
     = (if completes m then [] else currentTranscriptionRef s ++ fragment_of m)
  /\ updates s' = [].
Proof.
  intros [-> | ->] Hu; [|now apply onmessage_noteTaker_view].
  cbv zeta. rewrite onmessage_transcriber by assumption.
  destruct s. simpl in *. repeat split; assumption || reflexivity.
Qed.

Lemma fragments_view (app : App) (fs : list jsstring) (s : state) :
  app = transcriber \/ app = noteTaker ->
  updates s = [] ->
  let s' := fold_left (onmessage app) (map fragment fs) s in
  transcription s' = transcription s ++ concat fs
  /\ currentTranscriptionRef s' = currentTranscriptionRef s ++ concat fs
  /\ updates s' = [].
Proof.
  intros Happ. revert s. induction fs as [|f fs IH]; intros s Hu; simpl.
  - rewrite !app_nil_r. auto.
  - destruct (onmessage_view app s (fragment f) Happ Hu) as (Ht & Hc & Hu').
    destruct (IH _ Hu') as (Ht' & Hc' & Hu'').
    simpl in Ht, Hc. rewrite Ht', Hc', Ht, Hc, <- !app_assoc. auto.
Qed.

Lemma turn_view (app : App) (fs : list jsstring) (s : state) :
  app = transcriber \/ app = noteTaker ->
  updates s = [] ->
  let s' := fold_left (onmessage app) (map fragment fs ++ [turn_complete]) s in
  transcription s' = trim (transcription s ++ concat fs) ++ paragraph
  /\ currentTranscriptionRef s' = [].
Proof.
  intros Happ Hu. cbv zeta. rewrite fold_left_app. simpl.
  destruct (fragments_view app fs s Happ Hu) as (Ht & Hc & Hu').
  destruct (onmessage_view app _ turn_complete Happ Hu') as (Ht' & Hc' & _).
  simpl in Ht', Hc'. rewrite Ht', Hc', Ht, app_nil_r. auto.
Qed.

Lemma trim_split (x : jsstring) :
  exists lead tail, x = lead ++ trim x ++ tail /\ blank lead /\ blank tail.
Proof.
  destruct (trimStart_split x) as (lead & Hx & Hl).
  destruct (trimEnd_split (trimStart x)) as (tail & Hy & Ht).
  exists lead, tail. split; [|split; assumption].
  unfold trim. now rewrite <- Hy.
Qed.

(** C2 as stated fails on every turn but the first.  While recording, in
    either variant, the turn with the one fragment "A" leaves the transcript
    "A\n\n"; the next turn with the one fragment " B " then leaves
    "A\n\n B\n\n".  The trimmed concatenation of that turn's fragments
    followed by the separator is "B\n\n", so the transcript is neither that
    text nor the earlier transcript followed by it: the fragment's leading
    space is kept, because [trim] is applied to the whole transcript and not
    to the turn's text. *)
Lemma later_turn_is_not_trimmed_on_its_own :
  Forall (fun app =>
    let s := fold_left (onmessage app) (map fragment [str "A"] ++ [turn_complete])
               (recording app) in
    let s' := fold_left (onmessage app) (map fragment [str " B "] ++ [turn_complete]) s in
    transcription s = [65; 10; 10]
    /\ updates s = []
    /\ transcription s' = [65; 10; 10; 32; 66; 10; 10]
    /\ trim (concat [str " B "]) ++ [10; 10] = [66; 10; 10]
    /\ transcription s' <> trim (concat [str " B "]) ++ [10; 10]
    /\ transcription s' <> transcription s ++ trim (concat [str " B "]) ++ [10; 10])
    [transcriber; noteTaker].
Proof.
  apply Forall_cons_2; [|apply Forall_cons_2; [|apply Forall_nil_2]];
    cbv zeta; (do 4 (split; [vm_compute; reflexivity|]));
    split; vm_compute; discriminate.
Qed.

(** C2 (amended).  From a state with no transcript update pending, after the
    fragments F1..Fn and one turn-complete message have been handled, in
    either variant, the transcript is the earlier transcript followed by
    F1..Fn, trimmed as a whole at both ends, followed by the two line feeds
    of the paragraph separator.  The trimmed text is what is left of the
    earlier transcript and the fragments when the white space before and
    after is taken away; it neither starts nor ends with white space, so the
    separator occurs once at the end; and the live buffer is the empty
    string.  When the earlier transcript is empty, as after a start, the
    transcript is the trimmed concatenation of F1..Fn followed by the
    separator. *)
Theorem turn_commits_trimmed_transcript (app : App) (fs : list jsstring) (s : state) :
  app = transcriber \/ app = noteTaker ->
  updates s = [] ->
  let s' := fold_left (onmessage app) (map fragment fs ++ [turn_complete]) s in
  exists core lead tail : jsstring,
    transcription s' = core ++ [10; 10]
    /\ transcription s ++ concat fs = lead ++ core ++ tail
    /\ blank lead /\ blank tail
    /\ starts_clean core /\ ends_clean core
    /\ core = trim (transcription s ++ concat fs)
    /\ currentTranscriptionRef s' = []
    /\ (transcription s = [] -> transcription s' = trim (concat fs) ++ [10; 10]).
Proof.
  intros Happ Hu. cbv zeta.
  destruct (turn_view app fs s Happ Hu) as (Ht & Hcur).
  destruct (trim_split (transcription s ++ concat fs)) as (lead & tail & Hx & Hl & Htl).
  exists (trim (transcription s ++ concat fs)), lead, tail.
  split; [exact Ht|]. split; [exact Hx|]. split; [exact Hl|]. split; [exact Htl|].
  split; [apply trim_starts_clean|]. split; [apply trim_ends_clean|].
  split; [reflexivity|]. split; [exact Hcur|].
  intros He. rewrite Ht, He. reflexivity.
Qed.

Lemma turn_commits_trimmed_transcript_witness :
  (noteTaker = transcriber \/ noteTaker = noteTaker)
  /\ updates (fold_left (onmessage noteTaker) (map fragment [str "A"] ++ [turn_complete])
                (recording noteTaker)) = []
  /\ exists core lead tail : jsstring,
       transcription
         (fold_left (onmessage noteTaker) (map fragment [str " B "] ++ [turn_complete])
            (fold_left (onmessage noteTaker) (map fragment [str "A"] ++ [turn_complete])
               (recording noteTaker)))
       = core ++ [10; 10]
       /\ [65; 10; 10; 32; 66; 32] = lead ++ core ++ tail
       /\ blank lead /\ blank tail
       /\ starts_clean core /\ ends_clean core
       /\ core = [65; 10; 10; 32; 66].
Proof.
  split; [now right|]. split; [reflexivity|].
  destruct (turn_commits_trimmed_transcript noteTaker [str " B "]
              (fold_left (onmessage noteTaker) (map fragment [str "A"] ++ [turn_complete])
                 (recording noteTaker)) (or_intror eq_refl) eq_refl)
    as (core & lead & tail & H1 & H2 & H3 & H4 & H5 & H6 & H7 & _).
  exists core, lead, tail.
  split; [exact H1|]. split; [exact H2|]. split; [exact H3|]. split; [exact H4|].
  split; [exact H5|]. split; [exact H6|]. exact H7.
Defined.

Example hello_world :
  transcription (fold_left (onmessage noteTaker)
                   (map fragment [str "Hello "; str "world"; str "."] ++ [turn_complete])
                   initial)
  = str "Hello world." ++ [10; 10].
Proof. reflexivity. Qed.

(** After a message that completes a turn, however the state was before. *)
Lemma after_turn_complete (app : App) (content : option Transcription) (s : state) :
  app = transcriber \/ app = noteTaker ->
  let s1 := onmessage app s (mkMessage (Some (mkContent content true))) in
  (exists x, transcription s1 = trim x ++ paragraph)
  /\ currentTranscriptionRef s1 = []
  /\ updates s1 = [].
Proof.
  intros [-> | ->]; destruct s;
    unfold onmessage, transcriber, noteTaker, app_message,
      Transcriber.handleMessage, NoteTaker.handleMessage, NoteTaker.generateNotes;
    destruct content as [[t]|]; simpl;
    repeat match goal with
           | |- context [truthy ?x] => destruct (truthy x)
           | |- context [match ?x with Some _ => _ | None => _ end] => destruct x
           end; simpl; rewrite ?fold_left_app; simpl; repeat split; eauto.
Qed.

(** A turn-complete message with an empty buffer and a transcript that
    already ends with the separator changes nothing. *)
Lemma turn_complete_again (app : App) (x : jsstring) (s : state) :
  app = transcriber \/ app = noteTaker ->
  transcription s = trim x ++ paragraph ->
  currentTranscriptionRef s = [] ->
  updates s = [] ->
  onmessage app s turn_complete = s.
Proof.
  intros Happ. destruct s. simpl. intros -> -> ->.
  destruct Happ as [-> | ->];
    unfold onmessage, transcriber, noteTaker, app_message,
      Transcriber.handleMessage, NoteTaker.handleMessage; simpl;
    change (trim []) with (@nil Z); simpl; rewrite trim_paragraph; reflexivity.
Qed.

(** A second turn-complete message changes nothing. *)
Lemma second_turn_complete (app : App) (content : option Transcription) (s : state) :
  app = transcriber \/ app = noteTaker ->
  let s1 := onmessage app s (mkMessage (Some (mkContent content true))) in
  onmessage app s1 turn_complete = s1.
Proof.
  intros Happ. cbv zeta.
  destruct (after_turn_complete app content s Happ) as ([x Hx] & Hc & Hu).
  now apply (turn_complete_again app x).
Qed.

(** C8 (amended).  In both variants, when a second turn-complete message
    follows a first with no fragment in between, the second one trims the
    transcript again, which removes the separator the first one added, and
    adds one separator: the transcript is exactly what it was after the
    first message, ending with one separator, so no fragment text is
    committed twice; the live buffer stays empty, and no call, in
    particular no summarization request, is made.  The state is unchanged. *)
Theorem repeated_turn_complete_changes_nothing (content : option Transcription)
    (s : state) :
  Forall (fun app =>
    let s1 := onmessage app s (mkMessage (Some (mkContent content true))) in
    let s2 := onmessage app s1 turn_complete in
    transcription s2 = trim (transcription s1) ++ paragraph
    /\ transcription s2 = transcription s1
    /\ currentTranscriptionRef s1 = []
    /\ currentTranscriptionRef s2 = []
    /\ calls s2 = calls s1
    /\ s2 = s1)
    [transcriber; noteTaker].
Proof.
  assert (Hboth : forall app, app = transcriber \/ app = noteTaker ->
    let s1 := onmessage app s (mkMessage (Some (mkContent content true))) in
    let s2 := onmessage app s1 turn_complete in
    transcription s2 = trim (transcription s1) ++ paragraph
    /\ transcription s2 = transcription s1
    /\ currentTranscriptionRef s1 = []
    /\ currentTranscriptionRef s2 = []
    /\ calls s2 = calls s1
    /\ s2 = s1).
  { intros app Happ. cbv zeta.
    rewrite (second_turn_complete app content s Happ).
    destruct (after_turn_complete app content s Happ) as ([x Hx] & Hc & _).
    repeat split; try assumption; try reflexivity.
    rewrite Hx at 2. now rewrite trim_paragraph. }
  constructor; [apply Hboth; auto|]. constructor; [apply Hboth; auto|]. constructor.
Qed.

(** C8 as stated fails: the second turn-complete message does not leave
    the transcript of the first with the (empty) trimmed buffer and one more
    separator appended; the transcript still ends with one separator. *)
Lemma second_turn_complete_appends_nothing :
  Forall (fun app =>
    let s1 := fold_left (onmessage app) [fragment (str "a"); turn_complete] initial in
    let s2 := onmessage app s1 turn_complete in
    transcription s1 = str "a" ++ paragraph
    /\ transcription s2 = str "a" ++ paragraph
    /\ transcription s2
       <> transcription s1 ++ trim (currentTranscriptionRef s1) ++ paragraph)
    [transcriber; noteTaker].
Proof. repeat constructor; vm_compute; discriminate. Qed.

(** ** Teardown *)

Lemma track_stops (tracks : list nat) (s : state) :
  fold_left (fun s track => do_call (TrackStop track) s) tracks s
  = do_calls (map TrackStop tracks) s.
Proof.
  revert s. induction tracks as [|t tracks IH]; intros s; simpl.
  - destruct s. simpl. now rewrite app_nil_r.
  - rewrite IH. destruct s. simpl. now rewrite <- app_assoc.
Qed.

(** The four steps, each as assignments on the state it is given. *)
Lemma release_session_fields (s : state) :
  release_session s
  = set_sessionPromise None
      (set_microtasks (microtasks (release_session s))
         (set_connections (connections (release_session s)) s)).
Proof.
  destruct s as [st tr up er ln ig cur ai sp sr ac pr cn mt mr cl].
  unfold release_session, promise_then. simpl.
  destruct sp as [p|]; [|reflexivity]. simpl.
  destruct (cn !! p) as [c|]; [|reflexivity].
  destruct (outcome c); reflexivity.
Qed.

Lemma release_session_setStatus (v : TranscriptionStatus) (s : state) :
  connections (release_session (setStatus v s)) = connections (release_session s)
  /\ microtasks (release_session (setStatus v s)) = microtasks (release_session s).
Proof.
  destruct s as [st tr up er ln ig cur ai sp sr ac pr cn mt mr cl].
  unfold release_session, promise_then. simpl.
  destruct sp as [p|]; [|split; reflexivity]. simpl.
  destruct (cn !! p) as [c|]; [|split; reflexivity].
  destruct (outcome c); split; reflexivity.
Qed.

Lemma release_stream_fields (s : state) :
  release_stream s
  = set_stream None
      (do_calls (match streamRef s with
                 | Some stream => map TrackStop (getTracks stream)
                 | None => []
                 end) s).
Proof.
  destruct s as [st tr up er ln ig cur ai sp sr ac pr cn mt mr cl].
  unfold release_stream. simpl. destruct sr as [[tracks]|]; simpl.
  - now rewrite track_stops.
  - now rewrite app_nil_r.
Qed.

Lemma release_processor_fields (s : state) :
  release_processor s
  = set_scriptProcessor None
      (do_calls (match scriptProcessorRef s with
                 | Some _ => [ProcessorDisconnect]
                 | None => []
                 end) s).
Proof.
  destruct s as [st tr up er ln ig cur ai sp sr ac pr cn mt mr cl].
  unfold release_processor. simpl. destruct pr; simpl; [reflexivity|].
  now rewrite app_nil_r.
Qed.

Lemma release_context_fields (s : state) :
  context_open s ->
  release_context s
  = set_audioContext None
      (do_calls (match audioContextRef s with
                 | Some _ => [ContextClose]
                 | None => []
                 end) s).
Proof.
  destruct s as [st tr up er ln ig cur ai sp sr ac pr cn mt mr cl].
  unfold release_context, context_open. simpl. intros Hopen.
  destruct ac as [[rate [| |]]|]; simpl; try reflexivity.
  - exfalso. now apply (Hopen _ eq_refl).
  - now rewrite app_nil_r.
Qed.

Lemma context_open_frame (s s' : state) :
  audioContextRef s' = audioContextRef s -> context_open s -> context_open s'.
Proof. unfold context_open. now intros ->. Qed.

(** [stopTranscription] of the transcriber, field by field. *)
Lemma Transcriber_stop_fields (s : state) :
  context_open s ->
  Transcriber.stopTranscription s
  = mkState IDLE (transcription s)
      (updates s ++ (if truthy (currentTranscriptionRef s) then [AppendCurrentTrim] else []))
      (error s) (lectureNotes s) (isGeneratingNotes s) [] (aiRef s)
      None None None None
      (connections (release_session s)) (microtasks (release_session s))
      (mediaRequests s) (calls s ++ teardown_calls s).
Proof.
  intros Hopen. unfold Transcriber.stopTranscription. cbv zeta.
  rewrite (release_context_fields (release_processor _)).
  2:{ rewrite release_processor_fields, release_stream_fields, release_session_fields.
      eapply context_open_frame; [|exact Hopen]. now destruct s. }
  rewrite release_processor_fields, release_stream_fields, release_session_fields.
  destruct (release_session_setStatus STOPPING s) as [-> ->].
  unfold teardown_calls.
  destruct s as [st tr up er ln ig cur ai sp sr ac pr cn mt mr cl]. simpl.
  destruct cur; simpl; rewrite ?app_nil_r, <- ?app_assoc; reflexivity.
Qed.

(** [stopTranscription] of the note taker, field by field. *)
Lemma NoteTaker_stop_fields (s : state) :
  context_open s ->
  NoteTaker.stopTranscription s
  = mkState IDLE (transcription s) (updates s)
      (error s) (lectureNotes s) (isGeneratingNotes s)
      (currentTranscriptionRef s) None
      None None None None
      (connections (release_session s)) (microtasks (release_session s))
      (mediaRequests s) (calls s ++ teardown_calls s).
Proof.
  intros Hopen. unfold NoteTaker.stopTranscription. cbv zeta.
  rewrite (release_context_fields (release_processor _)).
  2:{ rewrite release_processor_fields, release_stream_fields, release_session_fields.
      eapply context_open_frame; [|exact Hopen]. now destruct s. }
  rewrite release_processor_fields, release_stream_fields, release_session_fields.
  destruct (release_session_setStatus STOPPING s) as [-> ->].
  unfold teardown_calls.
  destruct s as [st tr up er ln ig cur ai sp sr ac pr cn mt mr cl]. simpl.
  rewrite <- ?app_assoc. reflexivity.
Qed.

Lemma release_session_none (s : state) :
  sessionPromiseRef s = None -> release_session s = s.
Proof. unfold release_session. now intros ->. Qed.

Lemma release_session_pending (s : state) (p : nat) (c : connection) :
  sessionPromiseRef s = Some p -> connections s !! p = Some c -> outcome c = Pending ->
  connections (release_session s)
  = <[p := mkConnection Pending (reactions c ++ [CloseSession]) (seenStatus c)]> (connections s)
  /\ microtasks (release_session s) = microtasks s.
Proof.
  destruct s as [st tr up er ln ig cur ai sp sr ac pr cn mt mr cl]. simpl.
  intros -> Hc Ho. unfold release_session, promise_then. simpl.
  rewrite Hc, Ho. split; reflexivity.
Qed.

Lemma release_session_fulfilled (s : state) (p : nat) (c : connection) (session : nat) :
  sessionPromiseRef s = Some p -> connections s !! p = Some c ->
  outcome c = Fulfilled session ->
  connections (release_session s) = connections s
  /\ microtasks (release_session s) = microtasks s ++ [Job CloseSession (Fulfilled session)].
Proof.
  destruct s as [st tr up er ln ig cur ai sp sr ac pr cn mt mr cl]. simpl.
  intros -> Hc Ho. unfold release_session, promise_then. simpl.
  rewrite Hc, Ho. split; reflexivity.
Qed.

(** Jobs of a fulfilled promise: each makes its call, none queues another. *)
Lemma run_fulfilled_jobs (app : App) (session : nat) (rs : list reaction) :
  forall (fuel : nat) (s : state),
    microtasks s = map (fun r => Job r (Fulfilled session)) rs ->
    (length rs <= fuel)%nat ->
    run_jobs app fuel s
    = set_microtasks [] (do_calls (flat_map (fulfilled_calls session) rs) s).
Proof.
  induction rs as [|r rs IH]; intros fuel s Hm Hfuel.
  - destruct s as [st tr up er ln ig cur ai sp sr ac pr cn mt mr cl].
    simpl in *. subst mt. rewrite app_nil_r. now destruct fuel.
  - destruct fuel as [|fuel]; [simpl in Hfuel; lia|].
    simpl in Hfuel. simpl run_jobs. rewrite Hm. simpl map. cbv iota.
    rewrite (IH fuel).
    + destruct s as [st tr up er ln ig cur ai sp sr ac pr cn mt mr cl].
      destruct r; simpl; rewrite <- ?app_assoc, ?app_nil_r; reflexivity.
    + destruct s as [st tr up er ln ig cur ai sp sr ac pr cn mt mr cl].
      destruct r; reflexivity.
    + lia.
Qed.

Lemma drain_fulfilled (app : App) (session : nat) (rs : list reaction) (s : state) :
  microtasks s = map (fun r => Job r (Fulfilled session)) rs ->
  drain app s = set_microtasks [] (do_calls (flat_map (fulfilled_calls session) rs) s).
Proof.
  intros Hm. unfold drain. apply run_fulfilled_jobs; [exact Hm|].
  rewrite Hm, length_map. lia.
Qed.

Lemma stop_of (app : App) :
  app = transcriber \/ app = noteTaker ->
  forall s, context_open s ->
    status (app_stop app s) = IDLE
    /\ sessionPromiseRef (app_stop app s) = None
    /\ streamRef (app_stop app s) = None
    /\ scriptProcessorRef (app_stop app s) = None
    /\ audioContextRef (app_stop app s) = None
    /\ calls (app_stop app s) = calls s ++ teardown_calls s
    /\ connections (app_stop app s) = connections (release_session s)
    /\ microtasks (app_stop app s) = microtasks (release_session s)
    /\ app_stop app (app_stop app s) = app_stop app s.
Proof.
  intros [-> | ->] s Hopen; simpl app_stop.
  - rewrite (Transcriber_stop_fields s Hopen). repeat (split; [reflexivity|]).
    rewrite Transcriber_stop_fields by (intros ctx; discriminate).
    simpl. now rewrite !app_nil_r.
  - rewrite (NoteTaker_stop_fields s Hopen). repeat (split; [reflexivity|]).
    rewrite NoteTaker_stop_fields by (intros ctx; discriminate).
    simpl. now rewrite !app_nil_r.
Qed.

(** C1 (amended).  In both variants, from every state whose audio context,
    if any, is not already closed, [stopTranscription] leaves the status
    Idle and the four resource refs null.  Before it returns it has stopped
    every track of the stream, disconnected the processor and closed the
    context, in that order, each only if held.  The session is not closed
    inside the call: the close is attached to the session promise, as a
    waiting reaction when the promise is pending and as a queued job when it
    is fulfilled, so that [session.close()] runs after the three other
    releases.  A second [stopTranscription] changes nothing. *)
Theorem stop_releases_and_is_idempotent (app : App) (s : state) :
  app = transcriber \/ app = noteTaker ->
  context_open s ->
  let s' := app_stop app s in
  (status s' = IDLE /\ sessionPromiseRef s' = None /\ streamRef s' = None
   /\ scriptProcessorRef s' = None /\ audioContextRef s' = None)
  /\ calls s' = calls s ++ teardown_calls s
  /\ (sessionPromiseRef s = None ->
      connections s' = connections s /\ microtasks s' = microtasks s)
  /\ (forall p c, sessionPromiseRef s = Some p -> connections s !! p = Some c ->
      outcome c = Pending ->
      connections s'
      = <[p := mkConnection Pending (reactions c ++ [CloseSession]) (seenStatus c)]>
          (connections s)
      /\ microtasks s' = microtasks s)
  /\ (forall p c session, sessionPromiseRef s = Some p ->
      connections s !! p = Some c -> outcome c = Fulfilled session ->
      microtasks s = [] ->
      microtasks s' = [Job CloseSession (Fulfilled session)]
      /\ calls (drain app s') = calls s ++ teardown_calls s ++ [SessionClose session])
  /\ app_stop app s' = s'.
Proof.
  intros Happ Hopen. cbv zeta.
  destruct (stop_of app Happ s Hopen)
    as (Hst & Hsp & Hsr & Hpr & Hac & Hcl & Hcn & Hmt & Hidem).
  split; [auto|]. split; [exact Hcl|]. split; [|split; [|split; [|exact Hidem]]].
  - intros Hnone. rewrite Hcn, Hmt, (release_session_none s Hnone). auto.
  - intros p c Hp Hc Ho. rewrite Hcn, Hmt.
    now apply release_session_pending.
  - intros p c session Hp Hc Ho Hempty.
    destruct (release_session_fulfilled s p c session Hp Hc Ho) as [_ Hq].
    rewrite Hempty in Hq. simpl in Hq. rewrite Hq in Hmt.
    split; [exact Hmt|].
    rewrite (drain_fulfilled app session [CloseSession]) by exact Hmt.
    destruct (app_stop app s). simpl in *. rewrite Hcl, <- app_assoc. reflexivity.
Qed.

Lemma recording_context_open (app : App) :
  app = transcriber \/ app = noteTaker -> context_open (recording app).
Proof.
  intros [-> | ->] ctx Hctx; vm_compute in Hctx; injection Hctx as <-; discriminate.
Qed.

Lemma stop_releases_and_is_idempotent_witness :
  (transcriber = transcriber \/ transcriber = noteTaker)
  /\ context_open (recording transcriber)
  /\ calls (app_stop transcriber (recording transcriber))
     = calls (recording transcriber) ++ teardown_calls (recording transcriber).
Proof.
  split; [now left|].
  split; [apply recording_context_open; now left|].
  apply (stop_releases_and_is_idempotent transcriber (recording transcriber)
           (or_introl eq_refl) (recording_context_open transcriber (or_introl eq_refl))).
Defined.

(** C1 as stated fails: when the user stops a recording, the session is
    closed last, after the tracks, the processor and the context. *)
Lemma stop_closes_session_last :
  Forall (fun app =>
    let s := recording app in
    let s' := step app with_key s Click in
    calls s' = calls s ++ [TrackStop 7; ProcessorDisconnect; ContextClose; SessionClose 5]
    /\ calls s' <> calls s ++ [SessionClose 5; TrackStop 7; ProcessorDisconnect; ContextClose])
    [transcriber; noteTaker].
Proof. repeat constructor; vm_compute; discriminate. Qed.

Lemma handleError_eq (app : App) (e : JsError) (s : state) :
  app = transcriber \/ app = noteTaker ->
  app_error app e s
  = app_stop app
      (setError (Some (str "Error: " ++ errorMessage_of e ++ str ". Please try again."))
         (do_call (ConsoleError e) s)).
Proof. intros [-> | ->]; reflexivity. Qed.

Lemma handleError_of (app : App) (e : JsError) (s : state) :
  app = transcriber \/ app = noteTaker ->
  context_open s ->
  let s' := app_error app e s in
  error s' = Some (str "Error: " ++ errorMessage_of e ++ str ". Please try again.")
  /\ status s' = IDLE
  /\ (sessionPromiseRef s' = None /\ streamRef s' = None
      /\ scriptProcessorRef s' = None /\ audioContextRef s' = None)
  /\ calls s' = calls s ++ ConsoleError e :: teardown_calls s
  /\ connections s' = connections (release_session s)
  /\ microtasks s' = microtasks (release_session s)
  /\ mediaRequests s' = mediaRequests s.
Proof.
  intros Happ Hopen. cbv zeta. rewrite (handleError_eq app e s Happ).
  destruct s as [st tr up er ln ig cur ai sp sr ac pr cn mt mr cl].
  destruct Happ as [-> | ->]; simpl app_stop.
  - rewrite Transcriber_stop_fields by exact Hopen. simpl.
    unfold teardown_calls. simpl. rewrite <- app_assoc.
    unfold release_session, promise_then. simpl.
    destruct sp as [p|]; simpl; [destruct (cn !! p) as [c|]; [destruct (outcome c)|]|];
      repeat split; try reflexivity.
  - rewrite NoteTaker_stop_fields by exact Hopen. simpl.
    unfold teardown_calls. simpl. rewrite <- app_assoc.
    unfold release_session, promise_then. simpl.
    destruct sp as [p|]; simpl; [destruct (cn !! p) as [c|]; [destruct (outcome c)|]|];
      repeat split; try reflexivity.
Qed.

(** C4 (amended).  In both variants, when [onerror] fires (from every
    state whose audio context, if any, is not already closed), the error is
    logged, the message shown is "Error: " followed by the error's text when
    the error is an [Error] and by "An unknown error occurred." otherwise
    (the case of an [ErrorEvent]), followed by ". Please try again."; then
    [stopTranscription] runs as for a user stop: the tracks are stopped, the
    processor disconnected and the context closed, the close of the session
    is attached to its promise and runs once the microtasks do; the four
    refs are null and the resulting status is Idle. *)
Theorem transport_error_tears_down_to_idle (app : App) (e : JsError) (s : state) :
  app = transcriber \/ app = noteTaker ->
  context_open s ->
  let s' := app_error app e s in
  error s' = Some (str "Error: " ++ errorMessage_of e ++ str ". Please try again.")
  /\ s' = app_stop app (setError (error s') (do_call (ConsoleError e) s))
  /\ status s' = IDLE
  /\ (sessionPromiseRef s' = None /\ streamRef s' = None
      /\ scriptProcessorRef s' = None /\ audioContextRef s' = None)
  /\ calls s' = calls s ++ ConsoleError e :: teardown_calls s
  /\ (forall p c session, sessionPromiseRef s = Some p ->
      connections s !! p = Some c -> outcome c = Fulfilled session ->
      microtasks s = [] ->
      calls (drain app s')
      = calls s ++ ConsoleError e :: teardown_calls s ++ [SessionClose session]).
Proof.
  intros Happ Hopen. cbv zeta.
  destruct (handleError_of app e s Happ Hopen)
    as (Herr & Hst & Hrefs & Hcl & Hcn & Hmt & _).
  split; [exact Herr|]. split; [rewrite Herr; now apply handleError_eq|].
  split; [exact Hst|]. split; [exact Hrefs|]. split; [exact Hcl|].
  intros p c session Hp Hc Ho Hempty.
  destruct (release_session_fulfilled s p c session Hp Hc Ho) as [_ Hq].
  rewrite Hempty in Hq. simpl in Hq. rewrite Hq in Hmt.
  rewrite (drain_fulfilled app session [CloseSession]) by exact Hmt.
  destruct (app_error app e s). simpl in *. rewrite Hcl, <- app_assoc. reflexivity.
Qed.

Lemma transport_error_tears_down_to_idle_witness :
  (noteTaker = transcriber \/ noteTaker = noteTaker)
  /\ context_open (recording noteTaker)
  /\ status (app_error noteTaker (AnError (str "socket closed")) (recording noteTaker)) = IDLE.
Proof.
  split; [now right|].
  split; [apply recording_context_open; now right|].
  apply (transport_error_tears_down_to_idle noteTaker (AnError (str "socket closed"))
           (recording noteTaker) (or_intror eq_refl)
           (recording_context_open noteTaker (or_intror eq_refl))).
Defined.

(** C4 as stated fails: after [onerror] in the middle of a recording the
    status is Idle, not Error, and for an [ErrorEvent] the message shown does
    not contain the event's text. *)
Lemma transport_error_ends_idle :
  Forall (fun app =>
    let s' := step app with_key (recording app) (Failed 0 (AnErrorEvent (str "boom"))) in
    status s' = IDLE
    /\ status s' <> ERROR
    /\ error s' = Some (str "Error: An unknown error occurred.. Please try again.")
    /\ includes (str "boom") (default [] (error s')) = false)
    [transcriber; noteTaker].
Proof. repeat constructor; vm_compute; discriminate. Qed.

Lemma teardown_calls_acquire_nothing (s : state) :
  List.filter acquires (teardown_calls s) = [].
Proof.
  unfold teardown_calls. rewrite !List.filter_app.
  destruct (streamRef s) as [[tracks]|], (scriptProcessorRef s), (audioContextRef s);
    simpl; rewrite ?app_nil_r; try reflexivity;
    induction tracks as [|t tracks IH]; simpl; auto.
Qed.

(** C5 (amended).  When [startTranscription] finds no usable key, neither
    variant requests the microphone, creates a client or opens a session:
    no such call is made, no connection is added and no start is left
    waiting.  The note taker sets its own message and the status Error, and
    touches nothing else.  The transcriber throws into its [catch] block:
    [handleError] logs the error, shows "Error: API_KEY environment variable
    not set.. Please try again." (or the ReferenceError's text when there is
    no [process]) and runs [stopTranscription], so its status ends Idle. *)
Theorem missing_key_fails_fast (seen : TranscriptionStatus) (env : environment)
    (s : state) :
  key_absent env ->
  context_open s ->
  let n := NoteTaker.startTranscription seen env s in
  let t := Transcriber.startTranscription seen env s in
  (status n = ERROR /\ error n = Some NoteTaker.missingKeyMessage
   /\ calls n = calls s /\ connections n = connections s
   /\ microtasks n = microtasks s /\ mediaRequests n = mediaRequests s
   /\ sessionPromiseRef n = sessionPromiseRef s /\ streamRef n = streamRef s
   /\ aiRef n = aiRef s)
  /\ (status t = IDLE
      /\ error t = Some (str "Error: " ++ errorMessage_of (missing_key_error env)
                         ++ str ". Please try again.")
      /\ calls t = calls s ++ ConsoleError (missing_key_error env) :: teardown_calls s
      /\ List.filter acquires (calls t) = List.filter acquires (calls s)
      /\ length (connections t) = length (connections s)
      /\ mediaRequests t = mediaRequests s
      /\ sessionPromiseRef t = None /\ streamRef t = None).
Proof.
  intros Hkey Hopen. cbv zeta. split.
  - destruct s as [st tr up er ln ig cur ai sp sr ac pr cn mt mr cl].
    unfold NoteTaker.startTranscription. destruct env as [|key]; simpl in *.
    + repeat split; reflexivity.
    + rewrite Hkey. repeat split; reflexivity.
  - assert (Heq : Transcriber.startTranscription seen env s
                  = Transcriber.handleError (missing_key_error env)
                      (set_currentTranscription []
                         (setTranscription (Replace [])
                            (setError None (setStatus CONNECTING s))))).
    { unfold Transcriber.startTranscription. destruct env as [|key]; simpl in *.
      - reflexivity.
      - now rewrite Hkey. }
    rewrite Heq.
    match goal with
    | |- context [Transcriber.handleError ?e ?s0] =>
        assert (Hopen0 : context_open s0) by
          (eapply context_open_frame; [|exact Hopen]; now destruct s);
        destruct (handleError_of transcriber e s0 (or_introl eq_refl) Hopen0)
          as (Herr & Hst & (Hsp & Hsr & _) & Hcl & Hcn & _ & Hmr)
    end.
    simpl app_error in *.
    split; [exact Hst|]. split; [exact Herr|].
    assert (Hcalls : calls (Transcriber.handleError (missing_key_error env)
                        (set_currentTranscription []
                           (setTranscription (Replace [])
                              (setError None (setStatus CONNECTING s)))))
                     = calls s ++ ConsoleError (missing_key_error env) :: teardown_calls s).
    { rewrite Hcl. now destruct s. }
    split; [exact Hcalls|].
    split.
    { rewrite Hcalls, List.filter_app. simpl.
      rewrite teardown_calls_acquire_nothing.
      destruct env; simpl; now rewrite app_nil_r. }
    split.
    { rewrite Hcn.
      destruct s as [st tr up er ln ig cur ai sp sr ac pr cn mt mr cl].
      unfold release_session, promise_then. simpl.
      destruct sp as [p|]; simpl; [|reflexivity].
      destruct (cn !! p) as [c|]; [|reflexivity].
      destruct (outcome c); simpl; rewrite ?length_insert; reflexivity. }
    split; [rewrite Hmr; now destruct s|]. split; assumption.
Qed.

Lemma missing_key_fails_fast_witness :
  key_absent (ProcessEnv None)
  /\ context_open initial
  /\ status (NoteTaker.startTranscription IDLE (ProcessEnv None) initial) = ERROR
  /\ status (Transcriber.startTranscription IDLE (ProcessEnv None) initial) = IDLE.
Proof.
  assert (Hopen : context_open initial) by (intros ctx; discriminate).
  split; [reflexivity|]. split; [exact Hopen|].
  pose proof (missing_key_fails_fast IDLE (ProcessEnv None) initial eq_refl Hopen)
    as [Hn Ht].
  split; [apply Hn | apply Ht].
Defined.

(** C5 as stated fails for the transcriber: without a key, its status
    after the click is Idle, not Error. *)
Lemma transcriber_missing_key_ends_idle :
  let s' := step transcriber (ProcessEnv None) initial Click in
  status s' = IDLE /\ status s' <> ERROR
  /\ error s'
     = Some (str "Error: API_KEY environment variable not set.. Please try again.").
Proof. vm_compute. repeat split; discriminate. Qed.

(** C6, at the failing input.  A session started from Idle is recording
    when the remote side closes it: [onclose] tests the status its closure
    saw when the button was clicked (Idle), so [stopTranscription] is not
    called; the state is unchanged, the status still Recording, the stream,
    processor, context and session still held and no release call made. *)
Theorem remote_close_while_recording_is_ignored :
  Forall (fun app =>
    let s := recording app in
    let s' := step app with_key s (Closed 0) in
    status s = RECORDING
    /\ (seenStatus <$> connections s !! 0%nat) = Some IDLE
    /\ s' = s
    /\ status s' = RECORDING
    /\ streamRef s' = Some (mkStream [7%nat])
    /\ sessionPromiseRef s' = Some 0%nat
    /\ calls s' = calls s)
    [transcriber; noteTaker].
Proof. repeat constructor. Qed.

(** ** Audio frames *)

Lemma createBlob_frame (input : list spec_float) :
  createBlob input = Some (frame_blob input).
Proof. apply createBlob_total. Qed.

Lemma audio_while_pending (app : App) (env : environment) (p : nat)
    (waiting : list reaction) (seen : TranscriptionStatus) (input : list spec_float)
    (s : state) :
  awaiting_session p waiting seen s ->
  let s' := step app env s (AudioProcess input) in
  awaiting_session p (waiting ++ [SendRealtimeInput (frame_blob input)]) seen s'
  /\ calls s' = calls s.
Proof.
  intros (Hp & Hc & Hm & [node Hn]). cbv zeta.
  pose proof (lookup_lt_Some _ _ _ Hc) as Hlt.
  unfold step, dispatch, onaudioprocess. rewrite Hn, createBlob_frame, Hp.
  unfold promise_then. rewrite Hc. cbn [outcome reactions seenStatus].
  destruct s as [st tr up er ln ig cur ai sp sr ac pr cn mt mr cl].
  simpl in *. subst. unfold drain. simpl.
  unfold awaiting_session. simpl.
  rewrite list_lookup_insert_eq by exact Hlt. eauto 10.
Qed.

Lemma audio_run_while_pending (app : App) (env : environment) (p : nat)
    (seen : TranscriptionStatus) (inputs : list (list spec_float)) :
  forall (waiting : list reaction) (s : state),
    awaiting_session p waiting seen s ->
    let s' := run app env (map AudioProcess inputs) s in
    awaiting_session p
      (waiting ++ map (fun input => SendRealtimeInput (frame_blob input)) inputs) seen s'
    /\ calls s' = calls s.
Proof.
  induction inputs as [|input inputs IH]; intros waiting s Hs; simpl.
  - now rewrite app_nil_r.
  - destruct (audio_while_pending app env p waiting seen input s Hs) as [Hs' Hcalls].
    destruct (IH _ _ Hs') as [Hs'' Hcalls'].
    unfold run in *. rewrite <- app_assoc in Hs''. simpl in Hs''.
    split; [exact Hs''|]. now rewrite Hcalls'.
Qed.

Lemma session_resolves (app : App) (env : environment) (p session : nat)
    (waiting : list reaction) (seen : TranscriptionStatus) (s : state) :
  awaiting_session p waiting seen s ->
  let s' := step app env s (Connected p session) in
  in_session p session s'
  /\ calls s' = calls s ++ flat_map (fulfilled_calls session) waiting.
Proof.
  intros (Hp & Hc & Hm & [node Hn]). cbv zeta.
  pose proof (lookup_lt_Some _ _ _ Hc) as Hlt.
  unfold step, dispatch, settle. rewrite Hc. cbn [outcome reactions seenStatus].
  rewrite (drain_fulfilled app session waiting).
  2:{ destruct s. simpl in *. now subst. }
  destruct s as [st tr up er ln ig cur ai sp sr ac pr cn mt mr cl].
  simpl in *. subst. unfold in_session. simpl.
  rewrite list_lookup_insert_eq by exact Hlt. eauto 10.
Qed.

Lemma audio_in_session (app : App) (env : environment) (p session : nat)
    (input : list spec_float) (s : state) :
  in_session p session s ->
  let s' := step app env s (AudioProcess input) in
  in_session p session s'
  /\ calls s' = calls s ++ [SessionSend session (frame_blob input)].
Proof.
  intros (Hp & [seen Hc] & Hm & [node Hn]). cbv zeta.
  unfold step, dispatch, onaudioprocess. rewrite Hn, createBlob_frame, Hp.
  unfold promise_then. rewrite Hc. cbn [outcome reactions seenStatus].
  rewrite (drain_fulfilled app session [SendRealtimeInput (frame_blob input)]).
  2:{ destruct s. simpl in *. now subst. }
  destruct s as [st tr up er ln ig cur ai sp sr ac pr cn mt mr cl].
  simpl in *. subst. unfold in_session. simpl. eauto 10.
Qed.

Lemma audio_run_in_session (app : App) (env : environment) (p session : nat)
    (inputs : list (list spec_float)) :
  forall s : state,
    in_session p session s ->
    let s' := run app env (map AudioProcess inputs) s in
    in_session p session s'
    /\ calls s'
       = calls s ++ map (fun input => SessionSend session (frame_blob input)) inputs.
Proof.
  induction inputs as [|input inputs IH]; intros s Hs; simpl.
  - now rewrite app_nil_r.
  - destruct (audio_in_session app env p session input s Hs) as [Hs' Hcalls].
    destruct (IH _ Hs') as [Hs'' Hcalls'].
    unfold run in *. split; [exact Hs''|].
    rewrite Hcalls', Hcalls, <- app_assoc. reflexivity.
Qed.

(** Blocks received while the session promise is pending wait on it; when
    it is fulfilled the reactions run in the order they were attached and
    each block received afterwards is sent in turn. *)
Lemma frames_sent_once_fulfilled (app : App) (env : environment)
    (p session : nat) (waiting : list reaction) (seen : TranscriptionStatus)
    (before after : list (list spec_float)) (s : state) :
  awaiting_session p waiting seen s ->
  let s1 := run app env (map AudioProcess before) s in
  let s2 := run app env (Connected p session :: map AudioProcess after) s1 in
  calls s1 = calls s
  /\ connections s1 !! p
     = Some (mkConnection Pending
               (waiting ++ map (fun input => SendRealtimeInput (frame_blob input)) before)
               seen)
  /\ calls s2
     = calls s ++ flat_map (fulfilled_calls session) waiting
       ++ map (fun input => SessionSend session (frame_blob input)) (before ++ after)
  /\ microtasks s2 = []
  /\ Forall (fun input => createBlob input = Some (frame_blob input)) (before ++ after).
Proof.
  intros Hs. cbv zeta.
  destruct (audio_run_while_pending app env p seen before waiting s Hs) as [Hs1 Hc1].
  split; [exact Hc1|]. split; [apply Hs1|].
  change (run app env (Connected p session :: map AudioProcess after)
            (run app env (map AudioProcess before) s))
    with (run app env (map AudioProcess after)
            (step app env (run app env (map AudioProcess before) s) (Connected p session))).
  destruct (session_resolves app env p session _ seen _ Hs1) as [Hs2 Hc2].
  destruct (audio_run_in_session app env p session after _ Hs2) as [Hs3 Hc3].
  split; [|split; [apply Hs3|]].
  - rewrite Hc3, Hc2, Hc1, flat_map_app, map_app, <- !app_assoc.
    do 2 f_equal. f_equal.
    clear. induction before as [|b before IH]; simpl; [reflexivity|].
    now rewrite IH.
  - apply Forall_forall. intros input _. apply createBlob_frame.
Qed.

Lemma audio_while_pending_refs (app : App) (env : environment) (p : nat)
    (waiting : list reaction) (seen : TranscriptionStatus) (input : list spec_float)
    (s : state) :
  awaiting_session p waiting seen s ->
  let s' := step app env s (AudioProcess input) in
  streamRef s' = streamRef s
  /\ scriptProcessorRef s' = scriptProcessorRef s
  /\ audioContextRef s' = audioContextRef s.
Proof.
  intros (Hp & Hc & Hm & [node Hn]). cbv zeta.
  unfold step, dispatch, onaudioprocess. rewrite Hn, createBlob_frame, Hp.
  unfold promise_then. rewrite Hc. cbn [outcome reactions seenStatus].
  destruct s as [st tr up er ln ig cur ai sp sr ac pr cn mt mr cl].
  simpl in *. subst. unfold drain. simpl. auto.
Qed.

Lemma audio_run_while_pending_refs (app : App) (env : environment) (p : nat)
    (seen : TranscriptionStatus) (inputs : list (list spec_float)) :
  forall (waiting : list reaction) (s : state),
    awaiting_session p waiting seen s ->
    let s' := run app env (map AudioProcess inputs) s in
    streamRef s' = streamRef s
    /\ scriptProcessorRef s' = scriptProcessorRef s
    /\ audioContextRef s' = audioContextRef s.
Proof.
  induction inputs as [|input inputs IH]; intros waiting s Hs; simpl; [auto|].
  destruct (audio_while_pending app env p waiting seen input s Hs) as [Hs' _].
  destruct (audio_while_pending_refs app env p waiting seen input s Hs) as (H1 & H2 & H3).
  destruct (IH _ _ Hs') as (H1' & H2' & H3').
  unfold run in *. rewrite H1', H2', H3'. auto.
Qed.

(** ** Invariants of the event loop *)

Lemma consistent_frame (s s' : state) :
  view s' = view s -> consistent s -> consistent s'.
Proof.
  destruct s, s'. unfold view, consistent, context_open, buffer_shown. simpl.
  intros [= -> -> -> ->]. trivial.
Qed.

Lemma view_promise_then (p : nat) (r : reaction) (s : state) :
  view (promise_then p r s) = view s.
Proof.
  destruct s. unfold promise_then. simpl.
  destruct (_ !! p) as [c|]; [destruct (outcome c)|]; reflexivity.
Qed.

Lemma view_settle (p : nat) (v : settlement) (s : state) :
  view (settle p v s) = view s.
Proof.
  destruct s. unfold settle. simpl.
  destruct (_ !! p) as [c|]; [destruct (outcome c)|]; reflexivity.
Qed.

Lemma view_release_session (s : state) : view (release_session s) = view s.
Proof. rewrite release_session_fields. now destruct s. Qed.

Lemma view_connect (seen : TranscriptionStatus) (s : state) :
  view (connect seen s) = view s.
Proof. unfold connect. cbv zeta. rewrite view_promise_then. now destruct s. Qed.

Lemma view_onaudioprocess (input : list spec_float) (s : state) :
  view (onaudioprocess input s) = view s.
Proof.
  unfold onaudioprocess. rewrite createBlob_frame.
  destruct (sessionPromiseRef s); [apply view_promise_then | reflexivity].
Qed.

Lemma consistent_stop (app : App) (s : state) :
  app = transcriber \/ app = noteTaker -> consistent s -> consistent (app_stop app s).
Proof.
  intros Happ [Hopen Hview]. destruct Happ as [-> | ->]; simpl app_stop.
  - rewrite Transcriber_stop_fields by exact Hopen.
    split; [intros ctx; discriminate | now left].
  - rewrite NoteTaker_stop_fields by exact Hopen.
    split; [intros ctx; discriminate|].
    destruct s. unfold buffer_shown in *. simpl in *. exact Hview.
Qed.

Lemma consistent_error (app : App) (e : JsError) (s : state) :
  app = transcriber \/ app = noteTaker -> consistent s -> consistent (app_error app e s).
Proof.
  intros Happ Hs. rewrite handleError_eq by exact Happ.
  apply consistent_stop; [exact Happ|].
  eapply consistent_frame; [|exact Hs]. now destruct s.
Qed.

Lemma consistent_start (app : App) (seen : TranscriptionStatus) (env : environment)
    (s : state) :
  app = transcriber \/ app = noteTaker -> consistent s ->
  consistent (app_start app seen env s).
Proof.
  intros Happ [Hopen _].
  assert (Hfresh : forall s0, audioContextRef s0 = audioContextRef s ->
                     currentTranscriptionRef s0 = [] -> consistent s0).
  { intros s0 Hctx Hcur. split; [|now left].
    eapply context_open_frame; [exact Hctx | exact Hopen]. }
  destruct Happ as [-> | ->]; simpl app_start.
  - unfold Transcriber.startTranscription. cbv zeta.
    destruct env as [|key];
      [|destruct (truthy (default [] key))];
      try (apply (consistent_error transcriber); [now left|]);
      apply Hfresh; now destruct s.
  - unfold NoteTaker.startTranscription. cbv zeta.
    destruct (truthy _); apply Hfresh; now destruct s.
Qed.

Lemma consistent_resume (app : App) (seen : TranscriptionStatus) (stream : MediaStream)
    (s : state) :
  app = transcriber \/ app = noteTaker -> consistent s ->
  consistent (app_resume app seen stream s).
Proof.
  intros Happ Hs. destruct Happ as [-> | ->]; simpl app_resume.
  - unfold Transcriber.resumeTranscription. cbv zeta.
    eapply consistent_frame; [|exact Hs]. rewrite view_connect. now destruct s.
  - unfold NoteTaker.resumeTranscription. cbv zeta.
    destruct (aiRef (set_stream (Some stream) s)).
    + eapply consistent_frame; [|exact Hs]. rewrite view_connect. now destruct s.
    + apply (consistent_error noteTaker); [now right|].
      eapply consistent_frame; [|exact Hs]. now destruct s.
Qed.

Lemma consistent_close (app : App) (seen : TranscriptionStatus) (s : state) :
  app = transcriber \/ app = noteTaker -> consistent s ->
  consistent (app_close app seen s).
Proof.
  intros Happ Hs. destruct Happ as [-> | ->]; simpl app_close;
    [unfold Transcriber.onclose | unfold NoteTaker.onclose];
    destruct (_ && _); try exact Hs.
  - apply (consistent_stop transcriber); auto.
  - apply (consistent_stop noteTaker); auto.
Qed.

Lemma consistent_onopen (s : state) : consistent s -> consistent (onopen s).
Proof.
  intros [_ Hview]. unfold onopen. cbv zeta.
  destruct s as [st tr up er ln ig cur ai sp sr ac pr cn mt mr cl].
  unfold consistent, context_open, buffer_shown in *. simpl in *.
  destruct sr; simpl; (split; [intros ctx [= <-]; discriminate | exact Hview]).
Qed.

Lemma settled_consistent (s : state) : settled s -> consistent s.
Proof.
  intros (Hu & _ & Hopen & Hshown). split; [exact Hopen|]. right.
  rewrite Hu. split; [auto|].
  destruct s. unfold buffer_shown. simpl in *. subst. exact Hshown.
Qed.

(** What a message does to the four fields, in both variants. *)
Lemma view_message (app : App) (m : LiveServerMessage) (s : state) :
  app = transcriber \/ app = noteTaker ->
  view (app_message app m s)
  = (transcription s,
     updates s
     ++ match serverContent m ≫= inputTranscription with
        | Some _ => [Append (fragment_of m)]
        | None => []
        end
     ++ (if completes m then [TrimParagraph] else []),
     (if completes m then [] else currentTranscriptionRef s ++ fragment_of m),
     audioContextRef s).
Proof.
  intros Happ.
  destruct s as [st tr up er ln ig cur ai sp sr ac pr cn mt mr cl].
  destruct Happ as [-> | ->]; simpl app_message;
    [unfold Transcriber.handleMessage
    | unfold NoteTaker.handleMessage, NoteTaker.generateNotes];
    unfold view, fragment_of, completes;
    destruct_message m; simpl;
    repeat match goal with
           | |- context [truthy ?x] => destruct (truthy x)
           | |- context [match ?x with Some _ => _ | None => _ end] => destruct x
           end; simpl; rewrite ?app_nil_r, <- ?app_assoc; reflexivity.
Qed.

Lemma consistent_message (app : App) (m : LiveServerMessage) (s : state) :
  app = transcriber \/ app = noteTaker -> settled s ->
  consistent (app_message app m s).
Proof.
  intros Happ (Hu & _ & Hopen & [before Hshown]).
  pose proof (view_message app m s Happ) as Hview.
  destruct (app_message app m s) as [st' tr' up' er' ln' ig' cur' ai' sp' sr' ac' pr' cn' mt' mr' cl'].
  unfold view in Hview. simpl in Hview. rewrite Hu in Hview. simpl in Hview.
  injection Hview as -> -> -> ->.
  unfold consistent, context_open, buffer_shown. simpl.
  split; [exact Hopen|].
  destruct (completes m); [now left|]. right. rewrite app_nil_r. split.
  - destruct (serverContent m ≫= inputTranscription); simpl; intuition discriminate.
  - exists before. rewrite Hshown.
    destruct (serverContent m ≫= inputTranscription) eqn:Hf; simpl.
    + now rewrite <- app_assoc.
    + unfold fragment_of. rewrite Hf. now rewrite app_nil_r.
Qed.

Lemma consistent_dispatch (app : App) (env : environment) (ev : event) (s : state) :
  app = transcriber \/ app = noteTaker -> settled s ->
  consistent (dispatch app env ev s).
Proof.
  intros Happ Hsettled. pose proof (settled_consistent s Hsettled) as Hs.
  destruct ev; simpl.
  - unfold click. destruct (status s); auto using consistent_stop, consistent_start.
  - now apply consistent_stop.
  - destruct (mediaRequests s) as [|seen rest]; [exact Hs|].
    apply consistent_resume; [exact Happ|].
    eapply consistent_frame; [|exact Hs]. now destruct s.
  - destruct (mediaRequests s) as [|seen rest]; [exact Hs|].
    apply consistent_error; [exact Happ|].
    eapply consistent_frame; [|exact Hs]. now destruct s.
  - destruct (connections s !! p); [now apply consistent_onopen | exact Hs].
  - destruct (connections s !! p); [now apply consistent_message | exact Hs].
  - destruct (connections s !! p); [now apply consistent_error | exact Hs].
  - destruct (connections s !! p); [now apply consistent_close | exact Hs].
  - eapply consistent_frame; [apply view_settle | exact Hs].
  - eapply consistent_frame; [apply view_settle | exact Hs].
  - destruct Hs as [Hopen Hview].
    destruct s as [st tr up er ln ig cur ai sp sr ac pr cn mt mr cl].
    unfold consistent, context_open, buffer_shown in *. simpl in *.
    destruct ac as [[rate [| |]]|]; simpl; split; auto.
    intros ctx [= <-]. discriminate.
  - destruct (scriptProcessorRef s); [|exact Hs].
    eapply consistent_frame; [apply view_onaudioprocess | exact Hs].
Qed.

Lemma consistent_run_job (app : App) (j : job) (s : state) :
  app = transcriber \/ app = noteTaker -> consistent s ->
  consistent (run_job app j s).
Proof.
  intros Happ Hs. destruct j as [[ |media| ] [ |session|e]]; simpl;
    try exact Hs;
    try (eapply consistent_frame; [|exact Hs]; now destruct s).
  now apply consistent_error.
Qed.

Lemma queue_weight_app (q q' : list job) :
  queue_weight (q ++ q') = (queue_weight q + queue_weight q')%nat.
Proof. induction q as [|j q IH]; simpl; [reflexivity|]. rewrite IH. lia. Qed.

Lemma queue_weight_length (q : list job) : (queue_weight q <= 2 * length q)%nat.
Proof.
  induction q as [|[r v] q IH]; simpl; [lia|].
  destruct r, v; simpl; lia.
Qed.

Lemma release_session_queue (s : state) :
  (queue_weight (microtasks (release_session s)) <= queue_weight (microtasks s) + 1)%nat.
Proof.
  destruct s as [st tr up er ln ig cur ai sp sr ac pr cn mt mr cl].
  unfold release_session, promise_then. simpl.
  destruct sp as [p|]; simpl; [|lia].
  destruct (cn !! p) as [c|]; simpl; [|lia].
  destruct (outcome c); simpl; rewrite ?queue_weight_app; simpl; lia.
Qed.

Lemma run_job_queue (app : App) (j : job) (s : state) :
  app = transcriber \/ app = noteTaker -> consistent s ->
  (queue_weight (microtasks (run_job app j s)) + 1
   <= queue_weight (microtasks s) + job_weight j)%nat.
Proof.
  intros Happ Hs.
  destruct j as [[ |media| ] [ |session|e]]; simpl;
    try (destruct s; simpl; lia).
  assert (Hs0 : consistent (do_call (ConsoleError e) s))
    by (eapply consistent_frame; [|exact Hs]; now destruct s).
  destruct (handleError_of app e s Happ (proj1 Hs)) as (_ & _ & _ & _ & _ & Hq & _).
  rewrite Hq. pose proof (release_session_queue s). lia.
Qed.

(** The fuel of [drain] is enough: the jobs leave the state consistent and
    the queue empty. *)
Lemma run_jobs_empties (app : App) :
  app = transcriber \/ app = noteTaker ->
  forall (fuel : nat) (s : state),
    consistent s -> (queue_weight (microtasks s) <= fuel)%nat ->
    consistent (run_jobs app fuel s) /\ microtasks (run_jobs app fuel s) = [].
Proof.
  intros Happ. induction fuel as [|fuel IH]; intros s Hs Hfuel.
  - simpl. split; [exact Hs|].
    destruct (microtasks s) as [|[r v] q]; [reflexivity|].
    simpl in Hfuel. destruct r, v; simpl in Hfuel; lia.
  - simpl. destruct (microtasks s) as [|j q] eqn:Hq; [auto|].
    assert (Hs' : consistent (set_microtasks q s))
      by (eapply consistent_frame; [|exact Hs]; now destruct s).
    apply IH; [now apply consistent_run_job|].
    pose proof (run_job_queue app j (set_microtasks q s) Happ Hs') as Hw.
    assert (Hmq : microtasks (set_microtasks q s) = q) by now destruct s.
    rewrite Hmq in Hw. simpl in Hfuel.
    lia.
Qed.

Lemma drain_empties (app : App) (s : state) :
  app = transcriber \/ app = noteTaker -> consistent s ->
  consistent (drain app s) /\ microtasks (drain app s) = [].
Proof.
  intros Happ Hs. apply run_jobs_empties; [exact Happ | exact Hs|].
  apply queue_weight_length.
Qed.

Lemma settled_render (s : state) :
  consistent s -> microtasks s = [] -> settled (render s).
Proof.
  intros [Hopen Hview] Hm.
  destruct s as [st tr up er ln ig cur ai sp sr ac pr cn mt mr cl].
  unfold settled, context_open, buffer_shown in *. simpl in *.
  repeat split; try assumption; try reflexivity.
  destruct Hview as [-> | [_ Hshown]]; [|exact Hshown].
  eexists. now rewrite app_nil_r.
Qed.

Lemma settled_step (app : App) (env : environment) (ev : event) (s : state) :
  app = transcriber \/ app = noteTaker -> settled s -> settled (step app env s ev).
Proof.
  intros Happ Hs. unfold step.
  destruct (drain_empties app (dispatch app env ev s) Happ) as [Hd Hm].
  - now apply consistent_dispatch.
  - now apply settled_render.
Qed.

Lemma settled_initial : settled initial.
Proof.
  repeat split; try reflexivity; [intros ctx; discriminate | now exists []].
Qed.

(** Every state the event loop reaches is settled. *)
Lemma settled_run (app : App) (env : environment) (evs : list event) :
  app = transcriber \/ app = noteTaker ->
  forall s, settled s -> settled (run app env evs s).
Proof.
  intros Happ. induction evs as [|ev evs IH]; intros s Hs; simpl; [exact Hs|].
  apply IH. now apply settled_step.
Qed.

(** C7 (amended).  In every state the event loop reaches, in both
    variants, the transcript already ends with the live buffer:
    [handleMessage] appended each fragment to the transcript when it
    arrived.  [stopTranscription] of the note taker then changes neither the
    transcript nor the live buffer.  [stopTranscription] of the transcriber
    empties the live buffer and, when the buffer was not empty, leaves the
    transcript trimmed: the update it queues reads the buffer when React
    applies it, after the buffer was emptied, so nothing is appended.  In
    both variants the status returns to Idle. *)
Theorem stop_keeps_the_fragments_shown (env : environment) (evs : list event) :
  let t := run transcriber env evs initial in
  let n := run noteTaker env evs initial in
  (exists before, transcription t = before ++ currentTranscriptionRef t)
  /\ (exists before, transcription n = before ++ currentTranscriptionRef n)
  /\ transcription (render (NoteTaker.stopTranscription n)) = transcription n
  /\ currentTranscriptionRef (NoteTaker.stopTranscription n) = currentTranscriptionRef n
  /\ status (NoteTaker.stopTranscription n) = IDLE
  /\ transcription (render (Transcriber.stopTranscription t))
     = (if truthy (currentTranscriptionRef t) then trim (transcription t)
        else transcription t)
  /\ currentTranscriptionRef (Transcriber.stopTranscription t) = []
  /\ status (Transcriber.stopTranscription t) = IDLE.
Proof.
  cbv zeta.
  destruct (settled_run transcriber env evs (or_introl eq_refl) initial settled_initial)
    as (Htu & _ & Htopen & Htshown).
  destruct (settled_run noteTaker env evs (or_intror eq_refl) initial settled_initial)
    as (Hnu & _ & Hnopen & Hnshown).
  split; [exact Htshown|]. split; [exact Hnshown|].
  rewrite (NoteTaker_stop_fields _ Hnopen), (Transcriber_stop_fields _ Htopen).
  rewrite Hnu, Htu. simpl.
  repeat split; try reflexivity.
  destruct (currentTranscriptionRef (run transcriber env evs initial));
    simpl; now rewrite ?app_nil_r.
Qed.

(** C7 as stated fails: the note taker's [stopTranscription] appends
    nothing to the transcript, which already holds the text of the live
    buffer, and leaves the buffer as it is. *)
Lemma note_taker_stop_appends_nothing :
  let s := run noteTaker with_key
             [Message 0 (fragment (str "Hello ")); Message 0 (fragment (str "wor"))]
             (recording noteTaker) in
  let s' := step noteTaker with_key s Click in
  currentTranscriptionRef s = str "Hello wor"
  /\ transcription s = str "Hello wor"
  /\ status s' = IDLE
  /\ transcription s' = str "Hello wor"
  /\ transcription s' <> transcription s ++ currentTranscriptionRef s
  /\ currentTranscriptionRef s' = str "Hello wor".
Proof. vm_compute. repeat split; discriminate. Qed.

(** ** The status seen by [onclose] *)

Lemma started_frame (env : environment) (s s' : state) :
  connections s' = connections s -> mediaRequests s' = mediaRequests s ->
  (status s' = status s \/ status s' <> ERROR) ->
  started_from_idle env s -> started_from_idle env s'.
Proof.
  unfold started_from_idle. intros -> -> Hst (Hc & Hm & He).
  repeat split; try assumption. intros Herr. destruct Hst as [Hst | Hst]; [|contradiction].
  apply He. congruence.
Qed.

Lemma started_promise_then (env : environment) (p : nat) (r : reaction) (s : state) :
  started_from_idle env s -> started_from_idle env (promise_then p r s).
Proof.
  intros (Hc & Hm & He).
  destruct s as [st tr up er ln ig cur ai sp sr ac pr cn mt mr cl].
  unfold promise_then, started_from_idle in *. simpl in *.
  destruct (cn !! p) as [c|] eqn:Hp; simpl; [|auto].
  destruct (outcome c); simpl; repeat split; auto.
  apply Forall_insert; [exact Hc|]. simpl.
  exact (proj1 (Forall_lookup _ _) Hc p c Hp).
Qed.

Lemma started_settle (env : environment) (p : nat) (v : settlement) (s : state) :
  started_from_idle env s -> started_from_idle env (settle p v s).
Proof.
  intros (Hc & Hm & He).
  destruct s as [st tr up er ln ig cur ai sp sr ac pr cn mt mr cl].
  unfold settle, started_from_idle in *. simpl in *.
  destruct (cn !! p) as [c|] eqn:Hp; simpl; [|auto].
  destruct (outcome c); simpl; repeat split; auto.
  apply Forall_insert; [exact Hc|]. simpl.
  exact (proj1 (Forall_lookup _ _) Hc p c Hp).
Qed.

Lemma started_release_session (env : environment) (s : state) :
  started_from_idle env s -> started_from_idle env (release_session s).
Proof.
  intros Hs. unfold release_session. destruct (sessionPromiseRef s) as [p|]; [|exact Hs].
  pose proof (started_promise_then env p CloseSession s Hs) as Hs'.
  eapply started_frame; [| | |exact Hs']; try (now destruct (promise_then _ _ _)).
  left. now destruct (promise_then _ _ _).
Qed.

Lemma started_stop (env : environment) (app : App) (s : state) :
  app = transcriber \/ app = noteTaker -> context_open s ->
  started_from_idle env s -> started_from_idle env (app_stop app s).
Proof.
  intros Happ Hopen Hs.
  destruct (started_release_session env s Hs) as (Hc & _ & _).
  destruct Hs as (_ & Hm & _).
  destruct Happ as [-> | ->]; simpl app_stop;
    [rewrite Transcriber_stop_fields by exact Hopen
    | rewrite NoteTaker_stop_fields by exact Hopen];
    unfold started_from_idle; simpl; repeat split; auto; discriminate.
Qed.

Lemma started_error (env : environment) (app : App) (e : JsError) (s : state) :
  app = transcriber \/ app = noteTaker -> context_open s ->
  started_from_idle env s -> started_from_idle env (app_error app e s).
Proof.
  intros Happ Hopen Hs. rewrite handleError_eq by exact Happ.
  apply started_stop; [exact Happ| |].
  - eapply context_open_frame; [|exact Hopen]. now destruct s.
  - eapply started_frame; [| | |exact Hs]; try (now destruct s).
    left. now destruct s.
Qed.

Lemma started_start (env : environment) (app : App) (seen : TranscriptionStatus)
    (s : state) :
  app = transcriber \/ app = noteTaker -> context_open s ->
  seen = IDLE \/ key_absent env ->
  started_from_idle env s -> started_from_idle env (app_start app seen env s).
Proof.
  intros Happ Hopen Hseen Hs.
  assert (Hprep : forall s0, connections s0 = connections s ->
            mediaRequests s0 = mediaRequests s -> status s0 = CONNECTING ->
            started_from_idle env s0).
  { intros s0 Hc Hm Hst. eapply started_frame; [exact Hc | exact Hm | | exact Hs].
    right. rewrite Hst. discriminate. }
  destruct Happ as [-> | ->]; simpl app_start.
  - unfold Transcriber.startTranscription. cbv zeta.
    destruct env as [|key]; [|destruct (truthy (default [] key)) eqn:Hkey].
    + apply (started_error _ transcriber); [now left| |].
      * eapply context_open_frame; [|exact Hopen]. now destruct s.
      * apply Hprep; now destruct s.
    + destruct Hseen as [-> | Habs]; [|simpl in Habs; congruence].
      destruct Hs as (Hc & Hm & _).
      destruct s as [st tr up er ln ig cur ai sp sr ac pr cn mt mr cl].
      unfold started_from_idle. simpl in *. repeat split; auto; try discriminate.
      apply Forall_app. split; [exact Hm | now constructor].
    + apply (started_error _ transcriber); [now left| |].
      * eapply context_open_frame; [|exact Hopen]. now destruct s.
      * apply Hprep; now destruct s.
  - unfold NoteTaker.startTranscription. cbv zeta.
    destruct (truthy _) eqn:Hkey.
    + destruct Hseen as [-> | Habs];
        [|destruct env; simpl in *; congruence].
      destruct Hs as (Hc & Hm & _).
      destruct s as [st tr up er ln ig cur ai sp sr ac pr cn mt mr cl].
      unfold started_from_idle. simpl in *. repeat split; auto; try discriminate.
      apply Forall_app. split; [exact Hm | now constructor].
    + destruct Hs as (Hc & Hm & _).
      destruct s as [st tr up er ln ig cur ai sp sr ac pr cn mt mr cl].
      unfold started_from_idle. simpl in *. repeat split; auto.
      intros _. destruct env; simpl in *; auto.
Qed.

Lemma started_connect (env : environment) (s : state) :
  started_from_idle env s -> started_from_idle env (connect IDLE s).
Proof.
  intros (Hc & Hm & He). unfold connect. cbv zeta.
  apply started_promise_then.
  destruct s as [st tr up er ln ig cur ai sp sr ac pr cn mt mr cl].
  unfold started_from_idle. simpl in *. repeat split; auto.
  apply Forall_app. split; [exact Hc | now constructor].
Qed.

Lemma started_resume (env : environment) (app : App) (stream : MediaStream) (s : state) :
  app = transcriber \/ app = noteTaker -> context_open s ->
  started_from_idle env s -> started_from_idle env (app_resume app IDLE stream s).
Proof.
  intros Happ Hopen Hs.
  assert (Hs0 : started_from_idle env (set_stream (Some stream) s)).
  { eapply started_frame; [| | |exact Hs]; try (now destruct s). left. now destruct s. }
  destruct Happ as [-> | ->]; simpl app_resume.
  - now apply started_connect.
  - unfold NoteTaker.resumeTranscription. cbv zeta.
    destruct (aiRef _); [now apply started_connect|].
    apply (started_error _ noteTaker); [now right| |exact Hs0].
    eapply context_open_frame; [|exact Hopen]. now destruct s.
Qed.

Lemma started_message (env : environment) (app : App) (m : LiveServerMessage) (s : state) :
  app = transcriber \/ app = noteTaker ->
  started_from_idle env s -> started_from_idle env (app_message app m s).
Proof.
  intros Happ Hs. eapply started_frame; [| | |exact Hs];
    try left;
    destruct s as [st tr up er ln ig cur ai sp sr ac pr cn mt mr cl];
    destruct Happ as [-> | ->]; simpl app_message;
    unfold Transcriber.handleMessage, NoteTaker.handleMessage, NoteTaker.generateNotes;
    destruct_message m; simpl;
    repeat match goal with
           | |- context [truthy ?x] => destruct (truthy x)
           | |- context [match ?x with Some _ => _ | None => _ end] => destruct x
           end; reflexivity.
Qed.

Lemma started_dispatch (env : environment) (app : App) (ev : event) (s : state) :
  app = transcriber \/ app = noteTaker -> context_open s ->
  started_from_idle env s -> started_from_idle env (dispatch app env ev s).
Proof.
  intros Happ Hopen Hs. destruct ev; simpl.
  - unfold click. destruct (status s) eqn:Hst; try exact Hs.
    + apply started_start; auto.
    + now apply started_stop.
    + apply started_start; auto. right. now apply Hs.
  - now apply started_stop.
  - destruct (mediaRequests s) as [|seen rest] eqn:Hm; [exact Hs|].
    assert (Hseen : seen = IDLE /\ started_from_idle env (set_mediaRequests rest s)).
    { destruct Hs as (Hc & Hmr & He). rewrite Hm in Hmr.
      inversion Hmr as [|? ? Hseen Hrest]; subst. split; [reflexivity|].
      destruct s. unfold started_from_idle. simpl in *. auto. }
    destruct Hseen as [-> Hs']. apply started_resume; [exact Happ| |exact Hs'].
    eapply context_open_frame; [|exact Hopen]. now destruct s.
  - destruct (mediaRequests s) as [|seen rest] eqn:Hm; [exact Hs|].
    apply started_error; [exact Happ| |].
    + eapply context_open_frame; [|exact Hopen]. now destruct s.
    + destruct Hs as (Hc & Hmr & He). rewrite Hm in Hmr.
      inversion Hmr as [|? ? Hseen Hrest]; subst.
      destruct s. unfold started_from_idle. simpl in *. auto.
  - destruct (connections s !! p); [|exact Hs].
    eapply started_frame; [| | |exact Hs];
      unfold onopen; cbv zeta;
      destruct s as [st tr up er ln ig cur ai sp sr ac pr cn mt mr cl];
      destruct sr; simpl; try reflexivity; right; discriminate.
  - destruct (connections s !! p); [now apply started_message | exact Hs].
  - destruct (connections s !! p); [now apply started_error | exact Hs].
  - destruct (connections s !! p) as [c|]; [|exact Hs].
    destruct Happ as [-> | ->]; simpl app_close;
      [unfold Transcriber.onclose | unfold NoteTaker.onclose];
      destruct (_ && _); try exact Hs.
    + apply (started_stop _ transcriber); auto.
    + apply (started_stop _ noteTaker); auto.
  - now apply started_settle.
  - now apply started_settle.
  - eapply started_frame; [| | |exact Hs];
      destruct s as [st tr up er ln ig cur ai sp sr ac pr cn mt mr cl];
      destruct ac as [[rate [| |]]|]; simpl; auto.
  - destruct (scriptProcessorRef s); [|exact Hs].
    unfold onaudioprocess. rewrite createBlob_frame.
    destruct (sessionPromiseRef s); [now apply started_promise_then | exact Hs].
Qed.

Lemma started_run_job (env : environment) (app : App) (j : job) (s : state) :
  app = transcriber \/ app = noteTaker -> context_open s ->
  started_from_idle env s -> started_from_idle env (run_job app j s).
Proof.
  intros Happ Hopen Hs. destruct j as [[ |media| ] [ |session|e]]; simpl;
    try exact Hs;
    try (eapply started_frame; [| | |exact Hs]; try left; now destruct s).
  now apply started_error.
Qed.

Lemma started_run_jobs (env : environment) (app : App) :
  app = transcriber \/ app = noteTaker ->
  forall (fuel : nat) (s : state),
    consistent s -> started_from_idle env s ->
    started_from_idle env (run_jobs app fuel s).
Proof.
  intros Happ. induction fuel as [|fuel IH]; intros s Hc Hs; simpl; [exact Hs|].
  destruct (microtasks s) as [|j q]; [exact Hs|].
  assert (Hc' : consistent (set_microtasks q s))
    by (eapply consistent_frame; [|exact Hc]; now destruct s).
  assert (Hs' : started_from_idle env (set_microtasks q s)).
  { eapply started_frame; [| | |exact Hs]; try left; now destruct s. }
  apply IH; [now apply consistent_run_job|].
  apply started_run_job; [exact Happ | apply Hc' | exact Hs'].
Qed.

Lemma started_step (env : environment) (app : App) (ev : event) (s : state) :
  app = transcriber \/ app = noteTaker -> settled s ->
  started_from_idle env s -> started_from_idle env (step app env s ev).
Proof.
  intros Happ Hsettled Hs. unfold step.
  pose proof (consistent_dispatch app env ev s Happ Hsettled) as Hc.
  pose proof (started_dispatch env app ev s Happ (proj1 (settled_consistent s Hsettled)) Hs)
    as Hd.
  assert (Hj : started_from_idle env (drain app (dispatch app env ev s)))
    by (unfold drain; now apply started_run_jobs).
  eapply started_frame; [| | |exact Hj]; try left;
    now destruct (drain _ _).
Qed.

Lemma started_run (env : environment) (app : App) (evs : list event) :
  app = transcriber \/ app = noteTaker ->
  forall s, settled s -> started_from_idle env s ->
    settled (run app env evs s) /\ started_from_idle env (run app env evs s).
Proof.
  intros Happ. induction evs as [|ev evs IH]; intros s Hsettled Hs; simpl; [auto|].
  apply IH; [now apply settled_step | now apply started_step].
Qed.

(** X13.  The stale closure, in general.  In every state the event loop
    reaches, in both variants, [onclose] on any connection changes nothing:
    the status its closure saw is Idle, so it never calls
    [stopTranscription]. *)
Theorem remote_close_never_tears_down (app : App) (env : environment)
    (evs : list event) (p : nat) :
  app = transcriber \/ app = noteTaker ->
  let s := run app env evs initial in
  step app env s (Closed p) = s.
Proof.
  intros Happ. cbv zeta.
  assert (H0 : started_from_idle env initial).
  { repeat split; try constructor. discriminate. }
  destruct (started_run env app evs Happ initial settled_initial H0)
    as ((Hu & Hm & _ & _) & (Hc & _ & _)).
  unfold step.
  assert (Hd : dispatch app env (Closed p) (run app env evs initial)
               = run app env evs initial).
  { simpl. destruct (connections _ !! p) as [c|] eqn:Hp; [|reflexivity].
    rewrite (proj1 (Forall_lookup _ _) Hc p c Hp).
    destruct Happ as [-> | ->]; reflexivity. }
  rewrite Hd. unfold drain. rewrite Hm. simpl.
  destruct (run app env evs initial). simpl in *. now subst.
Qed.

Lemma encode_octets_length_bounded (n : nat) (bs : list Z) :
  (length bs <= n)%nat ->
  Z.of_nat (length (Base64.encode_octets bs)) = 4 * ((Z.of_nat (length bs) + 2) / 3).
Proof.
  revert bs. induction n as [|n IH]; intros bs Hlen.
  - destruct bs; [reflexivity | simpl in Hlen; lia].
  - destruct bs as [|a [|b [|c rest]]]; try reflexivity.
    cbn [Base64.encode_octets length].
    rewrite !Nat2Z.inj_succ, IH by (simpl in Hlen; lia).
    Z.to_euclidean_division_equations. lia.
Qed.

Lemma encode_octets_alphabet_bounded (n : nat) (bs : list Z) :
  (length bs <= n)%nat -> Forall octet bs ->
  Forall base64_char (Base64.encode_octets bs).
Proof.
  assert (Hchar : forall v, 0 <= v < 64 -> base64_char (Base64.char_of_sextet v)).
  { intros v Hv. right. rewrite Base64Facts.sextet_of_char_of_sextet by exact Hv. eauto. }
  assert (Hpad : base64_char Base64.pad) by now left.
  revert bs. induction n as [|n IH]; intros bs Hlen Hbs.
  - destruct bs; [constructor | simpl in Hlen; lia].
  - destruct bs as [|a [|b [|c rest]]]; [constructor| | |].
    + inversion_clear Hbs. unfold octet in *. cbn [Base64.encode_octets].
      repeat (apply Forall_cons_2;
              [first [exact Hpad | apply Hchar; Z.to_euclidean_division_equations; lia]|]).
      apply Forall_nil_2.
    + inversion_clear Hbs as [|? ? Ha Hr]. inversion_clear Hr.
      unfold octet in *. cbn [Base64.encode_octets].
      repeat (apply Forall_cons_2;
              [first [exact Hpad | apply Hchar; Z.to_euclidean_division_equations; lia]|]).
      apply Forall_nil_2.
    + inversion_clear Hbs as [|? ? Ha Hr]. inversion_clear Hr as [|? ? Hb Hr'].
      inversion_clear Hr' as [|? ? Hc Hrest].
      unfold octet in *. cbn [Base64.encode_octets].
      repeat (apply Forall_cons_2; [apply Hchar; Z.to_euclidean_division_equations; lia|]).
      apply IH; [simpl in Hlen; lia | exact Hrest].
Qed.

(** X1.  [encode] never throws on a byte array: it returns a text made of
    base-64 characters and padding, four characters for every three bytes
    (rounded up), and decoding the text gives the bytes back. *)
Theorem encode_round_trip (bytes : list Z) :
  Forall octet bytes ->
  exists text,
    encode bytes = Some text
    /\ Base64.decode text = Some bytes
    /\ Z.of_nat (length text) = 4 * ((Z.of_nat (length bytes) + 2) / 3)
    /\ Forall base64_char text.
Proof.
  intros Hb. exists (Base64.encode_octets bytes).
  split; [now apply encode_octets_ok|].
  split; [now apply Base64Facts.decode_encode|].
  split; [now apply (encode_octets_length_bounded (length bytes))|].
  now apply (encode_octets_alphabet_bounded (length bytes)).
Qed.

Lemma encode_round_trip_witness :
  Forall octet [0; 64; 0; 128]
  /\ exists text,
    encode [0; 64; 0; 128] = Some text
    /\ Base64.decode text = Some [0; 64; 0; 128]
    /\ Z.of_nat (length text) = 4 * ((Z.of_nat (length [0; 64; 0; 128]) + 2) / 3)
    /\ Forall base64_char text.
Proof.
  assert (H : Forall octet [0; 64; 0; 128]) by (repeat constructor; unfold octet; lia).
  split; [exact H | apply (encode_round_trip _ H)].
Defined.

Lemma scaled_sample_truncated (x : spec_float) :
  scaled_sample x = wrap16 (truncated_product x).
Proof. destruct x; reflexivity. Qed.

(** X2.  A sample whose product with 32768, truncated toward zero, lies
    in [-32768, 32767] is stored as that integer: nothing is lost but the
    fraction.  A sample whose truncated product lies in [32768, 65535], from
    full scale +1.0 up to just under +2.0, is stored as the product minus
    65536, a negative number: positive clipping changes the sign. *)
Theorem in_range_samples_are_exact (x : spec_float) :
  (-32768 <= truncated_product x <= 32767 ->
   ToInt16 (times_32768 x) = truncated_product x)
  /\ (32768 <= truncated_product x <= 65535 ->
      ToInt16 (times_32768 x) = truncated_product x - 65536
      /\ ToInt16 (times_32768 x) < 0).
Proof.
  rewrite ToInt16_scaled, scaled_sample_truncated. unfold wrap16.
  split; intros H; [|split]; Z.to_euclidean_division_equations; lia.
Qed.

Lemma in_range_samples_are_exact_witness :
  (-32768 <= truncated_product half <= 32767
   /\ ToInt16 (times_32768 half) = truncated_product half
   /\ truncated_product half = 16384)
  /\ (32768 <= truncated_product (S754_finite false 8388608 (-23)) <= 65535
      /\ ToInt16 (times_32768 (S754_finite false 8388608 (-23))) = -32768).
Proof.
  split.
  - assert (H : -32768 <= truncated_product half <= 32767) by (vm_compute; split; discriminate).
    split; [exact H|]. split; [apply (proj1 (in_range_samples_are_exact half) H) | reflexivity].
  - assert (H : 32768 <= truncated_product (S754_finite false 8388608 (-23)) <= 65535)
      by (vm_compute; split; discriminate).
    split; [exact H|].
    rewrite (proj1 (proj2 (in_range_samples_are_exact _) H)). reflexivity.
Defined.

Lemma run_jobs_cons (app : App) (fuel : nat) (j : job) (q : list job) (s : state) :
  microtasks s = j :: q ->
  run_jobs app (S fuel) s = run_jobs app fuel (run_job app j (set_microtasks q s)).
Proof. intros H. simpl. now rewrite H. Qed.

Lemma run_jobs_nil (app : App) (fuel : nat) (s : state) :
  microtasks s = [] -> run_jobs app fuel s = s.
Proof. intros H. destruct fuel; simpl; [reflexivity|]. now rewrite H. Qed.

(** X3.  After [stopTranscription], in both variants, a block that
    [onaudioprocess] still receives is dropped: no call is made and the
    state is unchanged. *)
Theorem no_audio_after_stop (app : App) (inputData : list spec_float) (s : state) :
  app = transcriber \/ app = noteTaker ->
  context_open s ->
  onaudioprocess inputData (app_stop app s) = app_stop app s.
Proof.
  intros Happ Hopen.
  destruct (stop_of app Happ s Hopen) as (_ & Hsp & _).
  unfold onaudioprocess. now rewrite createBlob_frame, Hsp.
Qed.

Lemma no_audio_after_stop_witness :
  (noteTaker = transcriber \/ noteTaker = noteTaker)
  /\ context_open (recording noteTaker)
  /\ onaudioprocess [half] (app_stop noteTaker (recording noteTaker))
     = app_stop noteTaker (recording noteTaker).
Proof.
  split; [now right|]. split; [apply recording_context_open; now right|].
  apply (no_audio_after_stop noteTaker [half] (recording noteTaker) (or_intror eq_refl)
           (recording_context_open noteTaker (or_intror eq_refl))).
Defined.

(** X4.  A stop while the session promise is still pending does not
    leave the session open: in both variants, when the promise is fulfilled
    afterwards, the sends that were waiting run first and then the session
    is closed; the ref stays null and no job is left. *)
Theorem pending_stop_closes_on_resolution (app : App) (env : environment)
    (p session : nat) (waiting : list reaction) (seen : TranscriptionStatus) (s : state) :
  app = transcriber \/ app = noteTaker ->
  context_open s ->
  awaiting_session p waiting seen s ->
  let s1 := app_stop app s in
  let s2 := step app env s1 (Connected p session) in
  connections s1 !! p = Some (mkConnection Pending (waiting ++ [CloseSession]) seen)
  /\ calls s1 = calls s ++ teardown_calls s
  /\ calls s2
     = calls s ++ teardown_calls s
       ++ flat_map (fulfilled_calls session) waiting ++ [SessionClose session]
  /\ sessionPromiseRef s2 = None
  /\ microtasks s2 = [].
Proof.
  intros Happ Hopen (Hp & Hc & Hm & _). cbv zeta.
  destruct (stop_of app Happ s Hopen)
    as (_ & Hsp & _ & _ & _ & Hcl & Hcn & Hmt & _).
  destruct (release_session_pending s p _ Hp Hc eq_refl) as [Hcn' Hmt'].
  simpl in Hcn'. rewrite Hcn' in Hcn. rewrite Hmt', Hm in Hmt.
  pose proof (lookup_lt_Some _ _ _ Hc) as Hlt.
  assert (Hlook : connections (app_stop app s) !! p
                  = Some (mkConnection Pending (waiting ++ [CloseSession]) seen)).
  { rewrite Hcn. now apply list_lookup_insert_eq. }
  split; [exact Hlook|]. split; [exact Hcl|].
  unfold step, dispatch, settle. rewrite Hlook. cbn [outcome reactions seenStatus].
  rewrite (drain_fulfilled app session (waiting ++ [CloseSession])).
  2:{ destruct (app_stop app s). simpl in *. now subst. }
  destruct (app_stop app s) as [st tr up er ln ig cur ai sp sr ac pr cn mt mr cl].
  simpl in *. subst. rewrite flat_map_app. simpl.
  rewrite <- !app_assoc. auto.
Qed.

Lemma pending_stop_closes_on_resolution_witness :
  (transcriber = transcriber \/ transcriber = noteTaker)
  /\ context_open (opened transcriber)
  /\ awaiting_session 0 [ResumeStart] IDLE (opened transcriber)
  /\ calls (step transcriber with_key (app_stop transcriber (opened transcriber))
              (Connected 0 5))
     = calls (opened transcriber) ++ teardown_calls (opened transcriber)
       ++ flat_map (fulfilled_calls 5) [ResumeStart] ++ [SessionClose 5].
Proof.
  assert (Ho : context_open (opened transcriber)).
  { intros ctx Hctx. vm_compute in Hctx. injection Hctx as <-. discriminate. }
  assert (Ha : awaiting_session 0 [ResumeStart] IDLE (opened transcriber)).
  { repeat split; try reflexivity. eexists. reflexivity. }
  split; [now left|]. split; [exact Ho|]. split; [exact Ha|].
  exact (proj1 (proj2 (proj2
           (pending_stop_closes_on_resolution transcriber with_key 0 5 [ResumeStart] IDLE
              (opened transcriber) (or_introl eq_refl) Ho Ha)))).
Defined.

(** X5.  When the promise of [connect] is rejected while
    [startTranscription] awaits it, in both variants the [catch] block
    reports the error and releases what was acquired: the error is logged,
    the message shown carries the error's text, the tracks are stopped (and
    processor and context released if held), the refs are null and the
    status is Idle; the close attached to the rejected promise is skipped
    and surfaces as one unhandled rejection. *)
Theorem rejected_connect_releases (app : App) (env : environment) (p : nat)
    (e : JsError) (seen : TranscriptionStatus) (s : state) :
  app = transcriber \/ app = noteTaker ->
  context_open s ->
  sessionPromiseRef s = Some p ->
  connections s !! p = Some (mkConnection Pending [ResumeStart] seen) ->
  microtasks s = [] ->
  let s' := step app env s (ConnectFailed p e) in
  status s' = IDLE
  /\ error s' = Some (str "Error: " ++ errorMessage_of e ++ str ". Please try again.")
  /\ (sessionPromiseRef s' = None /\ streamRef s' = None
      /\ scriptProcessorRef s' = None /\ audioContextRef s' = None)
  /\ calls s' = calls s ++ ConsoleError e :: teardown_calls s ++ [Uncaught]
  /\ microtasks s' = [].
Proof.
  intros Happ Hopen Hp Hc Hm. cbv zeta.
  pose proof (lookup_lt_Some _ _ _ Hc) as Hlt.
  unfold step, dispatch, settle. rewrite Hc. cbn [outcome reactions seenStatus].
  rewrite Hm. cbn [map List.app].
  set (s0 := set_connections _ s).
  assert (Hs0 : sessionPromiseRef s0 = Some p
                /\ connections s0 !! p = Some (mkConnection (Rejected e) [] seen)
                /\ microtasks s0 = [] /\ context_open s0
                /\ calls s0 = calls s /\ teardown_calls s0 = teardown_calls s).
  { subst s0. destruct s as [st tr up er ln ig cur ai sp sr ac pr cn mt mr cl].
    simpl in *. repeat split; auto. now apply list_lookup_insert_eq. }
  destruct Hs0 as (Hp0 & Hc0 & Hm0 & Hopen0 & Hcalls0 & Htd0).
  set (s1 := set_microtasks [Job ResumeStart (Rejected e)] s0).
  unfold drain.
  assert (Hm1 : microtasks s1 = [Job ResumeStart (Rejected e)])
    by (subst s1; now destruct s0).
  rewrite Hm1. change (2 * length [Job ResumeStart (Rejected e)])%nat with 2%nat.
  rewrite (run_jobs_cons app 1 _ [] s1 Hm1). cbn [run_job].
  set (s2 := set_microtasks [] s1).
  assert (Hs2 : sessionPromiseRef s2 = Some p
                /\ connections s2 !! p = Some (mkConnection (Rejected e) [] seen)
                /\ microtasks s2 = [] /\ context_open s2
                /\ calls s2 = calls s /\ teardown_calls s2 = teardown_calls s).
  { subst s2 s1. destruct s0. simpl in *. repeat split; auto. }
  destruct Hs2 as (Hp2 & Hc2 & Hm2 & Hopen2 & Hcalls2 & Htd2).
  destruct (handleError_of app e s2 Happ Hopen2)
    as (Herr & Hst & (Hsp & Hsr & Hpr & Hac) & Hcl & Hcn & Hmt & _).
  assert (Hq : microtasks (app_error app e s2) = [Job CloseSession (Rejected e)]).
  { rewrite Hmt. clear - Hp2 Hc2 Hm2.
    destruct s2 as [st tr up er ln ig cur ai sp sr ac pr cn mt mr cl].
    simpl in *. subst. unfold release_session, promise_then. simpl. now rewrite Hc2. }
  rewrite (run_jobs_cons app 0 _ [] _ Hq). cbn [run_job run_jobs].
  destruct (app_error app e s2) as [st tr up er ln ig cur ai sp sr ac pr cn mt mr cl].
  simpl in *. subst. rewrite Hcalls2, Htd2.
  repeat split; try reflexivity. now rewrite <- app_assoc.
Qed.

Lemma rejected_connect_releases_witness :
  (noteTaker = transcriber \/ noteTaker = noteTaker)
  /\ context_open (connecting noteTaker)
  /\ sessionPromiseRef (connecting noteTaker) = Some 0%nat
  /\ connections (connecting noteTaker) !! 0%nat
     = Some (mkConnection Pending [ResumeStart] IDLE)
  /\ microtasks (connecting noteTaker) = []
  /\ calls (step noteTaker with_key (connecting noteTaker)
              (ConnectFailed 0 (AnError (str "handshake failed"))))
     = calls (connecting noteTaker)
       ++ ConsoleError (AnError (str "handshake failed"))
          :: teardown_calls (connecting noteTaker) ++ [Uncaught].
Proof.
  assert (Ho : context_open (connecting noteTaker)) by (intros ctx Hctx; discriminate).
  split; [now right|]. split; [exact Ho|].
  split; [reflexivity|]. split; [reflexivity|]. split; [reflexivity|].
  exact (proj1 (proj2 (proj2 (proj2
           (rejected_connect_releases noteTaker with_key 0 (AnError (str "handshake failed"))
              IDLE (connecting noteTaker) (or_intror eq_refl) Ho eq_refl eq_refl eq_refl))))).
Defined.

Lemma trim_blank (w : jsstring) : blank w -> trim w = [].
Proof.
  intros Hw. unfold trim.
  rewrite <- (app_nil_r w), trimStart_blank by exact Hw. reflexivity.
Qed.

Lemma blank_app (v w : jsstring) : blank v -> blank w -> blank (v ++ w).
Proof. intros Hv Hw. apply Forall_app. now split. Qed.

Lemma onmessage_calls (app : App) (s : state) (m : LiveServerMessage) :
  app = transcriber \/ app = noteTaker ->
  truthy (trim (currentTranscriptionRef s ++ fragment_of m)) = false
  \/ completes m = false ->
  calls (onmessage app s m) = calls s.
Proof.
  intros Happ Hquiet. unfold onmessage.
  transitivity (calls (app_message app m s)); [now destruct (app_message app m s)|].
  destruct Happ as [-> | ->]; simpl app_message.
  - apply Transcriber_handleMessage_calls.
  - destruct (NoteTaker_handleMessage_notes m s) as (_ & _ & Hcalls).
    rewrite Hcalls. destruct Hquiet as [-> | ->];
      rewrite ?andb_false_r, ?andb_false_l; simpl; now rewrite app_nil_r.
Qed.

Lemma fragments_calls (app : App) (fs : list jsstring) (s : state) :
  app = transcriber \/ app = noteTaker ->
  calls (fold_left (onmessage app) (map fragment fs) s) = calls s.
Proof.
  intros Happ. revert s. induction fs as [|f fs IH]; intros s; simpl; [reflexivity|].
  rewrite IH. apply onmessage_calls; [exact Happ | now right].
Qed.

(** X6.  A turn whose fragments are all white space (or that has no
    fragment) adds nothing, in both variants: when the transcript ends with
    the separator of an earlier turn, it is the same after the turn; the
    live buffer is empty again, and no call, in particular no summarization
    request, is made. *)
Theorem blank_turn_adds_nothing (app : App) (x : jsstring) (fs : list jsstring)
    (s : state) :
  app = transcriber \/ app = noteTaker ->
  transcription s = trim x ++ paragraph ->
  updates s = [] ->
  currentTranscriptionRef s = [] ->
  blank (concat fs) ->
  let s' := fold_left (onmessage app) (turn fs) s in
  transcription s' = transcription s
  /\ currentTranscriptionRef s' = []
  /\ calls s' = calls s.
Proof.
  intros Happ Ht Hu Hcur Hblank. cbv zeta. unfold turn.
  destruct (turn_view app fs s Happ Hu) as (Ht' & Hc').
  split; [|split; [exact Hc'|]].
  - rewrite Ht', Ht, <- app_assoc. f_equal.
    apply trim_blank_suffix;
      [apply trim_starts_clean | apply trim_ends_clean|].
    apply blank_app; [apply blank_paragraph | exact Hblank].
  - rewrite fold_left_app. simpl.
    destruct (fragments_view app fs s Happ Hu) as (_ & Hc & _).
    rewrite onmessage_calls; [now apply fragments_calls | exact Happ|].
    left. rewrite Hc, Hcur. simpl. rewrite app_nil_r.
    now rewrite (trim_blank _ Hblank).
Qed.

Lemma blank_turn_adds_nothing_witness :
  (noteTaker = transcriber \/ noteTaker = noteTaker)
  /\ blank (concat [str " "; [10]])
  /\ (let s := fold_left (onmessage noteTaker) (turn [str "Hello"]) (recording noteTaker) in
      transcription (fold_left (onmessage noteTaker) (turn [str " "; [10]]) s)
      = transcription s).
Proof.
  assert (Hb : blank (concat [str " "; [10]])) by (repeat constructor).
  split; [now right|]. split; [exact Hb|]. cbv zeta.
  apply (blank_turn_adds_nothing noteTaker (str "Hello") [str " "; [10]]
           (fold_left (onmessage noteTaker) (turn [str "Hello"]) (recording noteTaker))
           (or_intror eq_refl)); try reflexivity. exact Hb.
Defined.





Lemma trimStart_keeps (a b : jsstring) :
  starts_clean b -> b <> [] -> exists a', trimStart (a ++ b) = a' ++ b.
Proof.
  intros Hb Hne. induction a as [|c a [a' IH]]; simpl.
  - exists []. now apply trimStart_of_clean.
  - destruct (isWhiteSpace c); [now exists a' | now exists (c :: a)].
Qed.

Lemma trim_keeps (y z : jsstring) :
  starts_clean y -> ends_clean y -> y <> [] -> exists r, trim (y ++ z) = y ++ r.
Proof.
  intros Hs He Hne. unfold trim. rewrite trimStart_app by assumption.
  unfold trimEnd. rewrite rev_app_distr.
  destruct (trimStart_keeps (rev z) (rev y) He) as [a' Ha].
  { intros Hr. apply Hne. rewrite <- (rev_involutive y), Hr. reflexivity. }
  exists (rev a'). now rewrite Ha, rev_app_distr, rev_involutive.
Qed.

(** X8.  Text committed by earlier turns is kept: in both variants, when
    the transcript is a non-empty text without white space at either end
    followed by the separator, then after any fragments, and after a further
    turn completion, the transcript still begins with that text. *)
Theorem committed_text_is_kept (app : App) (y : jsstring) (fs : list jsstring)
    (s : state) :
  app = transcriber \/ app = noteTaker ->
  transcription s = y ++ paragraph ->
  updates s = [] ->
  starts_clean y -> ends_clean y -> y <> [] ->
  (exists rest,
     transcription (fold_left (onmessage app) (map fragment fs) s) = y ++ rest)
  /\ (exists rest,
        transcription (fold_left (onmessage app) (turn fs) s) = y ++ rest).
Proof.
  intros Happ Ht Hu Hs He Hne. split.
  - destruct (fragments_view app fs s Happ Hu) as (Ht' & _).
    rewrite Ht', Ht, <- app_assoc. eauto.
  - destruct (turn_view app fs s Happ Hu) as (Ht' & _). unfold turn.
    rewrite Ht', Ht, <- app_assoc.
    destruct (trim_keeps y (paragraph ++ concat fs) Hs He Hne) as [r Hr].
    rewrite Hr, <- app_assoc. eauto.
Qed.

Lemma committed_text_is_kept_witness :
  (transcriber = transcriber \/ transcriber = noteTaker)
  /\ (let s := fold_left (onmessage transcriber) (turn [str "Hello"]) initial in
      transcription s = str "Hello" ++ paragraph
      /\ exists rest,
           transcription (fold_left (onmessage transcriber) (turn [str " world "]) s)
           = str "Hello" ++ rest).
Proof.
  split; [now left|]. cbv zeta. split; [reflexivity|].
  apply (committed_text_is_kept transcriber (str "Hello") [str " world "]
           (fold_left (onmessage transcriber) (turn [str "Hello"]) initial)
           (or_introl eq_refl)); try reflexivity. discriminate.
Defined.

(** X9.  After [stopTranscription] the note taker issues no
    summarization request: [generateNotes] returns at once, and whatever
    messages still arrive, [handleMessage] makes no call. *)
Theorem no_summary_after_stop (ms : list LiveServerMessage) (chunk : jsstring)
    (s : state) :
  context_open s ->
  NoteTaker.generateNotes chunk (NoteTaker.stopTranscription s)
  = NoteTaker.stopTranscription s
  /\ calls (deliver NoteTaker.handleMessage ms (NoteTaker.stopTranscription s))
     = calls (NoteTaker.stopTranscription s).
Proof.
  intros Hopen.
  assert (Hai : aiRef (NoteTaker.stopTranscription s) = None)
    by now rewrite NoteTaker_stop_fields.
  split.
  - unfold NoteTaker.generateNotes. now rewrite Hai.
  - rewrite deliver_NoteTaker_calls, Hai.
    rewrite bool_decide_eq_false_2 by (intros [? ?]; discriminate).
    apply app_nil_r.
Qed.

Lemma no_summary_after_stop_witness :
  context_open (recording noteTaker)
  /\ calls (deliver NoteTaker.handleMessage (turn [str "late words"])
              (NoteTaker.stopTranscription (recording noteTaker)))
     = calls (NoteTaker.stopTranscription (recording noteTaker)).
Proof.
  assert (Ho : context_open (recording noteTaker))
    by (apply recording_context_open; now right).
  split; [exact Ho|].
  exact (proj2 (no_summary_after_stop (turn [str "late words"]) [] (recording noteTaker) Ho)).
Defined.

Lemma message_keeps_resources (app : App) (m : LiveServerMessage) (s : state) :
  app = transcriber \/ app = noteTaker ->
  let s' := app_message app m s in
  status s' = status s /\ streamRef s' = streamRef s
  /\ sessionPromiseRef s' = sessionPromiseRef s /\ connections s' = connections s
  /\ scriptProcessorRef s' = scriptProcessorRef s
  /\ audioContextRef s' = audioContextRef s /\ microtasks s' = microtasks s.
Proof.
  intros Happ.
  destruct s as [st tr up er ln ig cur ai sp sr ac pr cn mt mr cl].
  destruct Happ as [-> | ->]; simpl app_message;
    [unfold Transcriber.handleMessage
    | unfold NoteTaker.handleMessage, NoteTaker.generateNotes];
    destruct_message m; simpl;
    repeat match goal with
           | |- context [truthy ?x] => destruct (truthy x)
           | |- context [match ?x with Some _ => _ | None => _ end] => destruct x
           end; simpl; repeat split; reflexivity.
Qed.

Lemma in_recording_frame (stream : MediaStream) (session : nat) (s s' : state) :
  status s' = status s -> streamRef s' = streamRef s ->
  sessionPromiseRef s' = sessionPromiseRef s -> connections s' = connections s ->
  scriptProcessorRef s' = scriptProcessorRef s ->
  audioContextRef s' = audioContextRef s -> microtasks s' = microtasks s ->
  in_recording stream session s -> in_recording stream session s'.
Proof.
  unfold in_recording, context_open. intros -> -> -> -> -> -> ->. trivial.
Qed.

Lemma recording_started (app : App) (key : jsstring) (stream : MediaStream)
    (session : nat) :
  app = transcriber \/ app = noteTaker ->
  truthy key = true ->
  in_recording stream session
    (run app (ProcessEnv (Some key))
       [Click; MediaGranted stream; Opened 0; Connected 0 session] initial).
Proof.
  intros Happ Hkey. destruct key as [|c key]; [discriminate|].
  destruct Happ as [-> | ->]; unfold in_recording, context_open; simpl;
    repeat split; eauto; intros ctx [= <-]; discriminate.
Qed.

Lemma recording_goes_on (app : App) (env : environment) (stream : MediaStream)
    (session : nat) (ev : event) (s : state) :
  app = transcriber \/ app = noteTaker ->
  recording_event ev ->
  in_recording stream session s ->
  in_recording stream session (step app env s ev).
Proof.
  intros Happ Hev Hs. unfold step.
  assert (Hrender : forall s0, in_recording stream session s0 ->
                      in_recording stream session (render s0)).
  { intros s0. apply in_recording_frame; now destruct s0. }
  assert (Hdrain : forall s0, in_recording stream session s0 -> drain app s0 = s0).
  { intros s0 (_ & _ & _ & _ & _ & _ & _ & Hm). unfold drain. now apply run_jobs_nil. }
  destruct ev as [| | | | | [|p] m | | | | | |input]; try contradiction.
  - (* a message *)
    assert (Hm : in_recording stream session (dispatch app env (Message 0 m) s)).
    { simpl. destruct Hs as (Hst & Hsr & Hsp & Hcn & Hrest). rewrite Hcn. simpl.
      destruct (message_keeps_resources app m s Happ) as (? & ? & ? & ? & ? & ? & ?).
      eapply in_recording_frame; eauto. repeat split; tauto. }
    rewrite (Hdrain _ Hm). now apply Hrender.
  - (* the context runs *)
    assert (Hm : in_recording stream session (dispatch app env ContextRunning s)).
    { simpl. destruct Hs as (Hst & Hsr & Hsp & Hcn & Hpr & [ctx Hac] & Hopen & Hmt).
      rewrite Hac. destruct ctx as [rate [| |]];
        try (repeat split; eauto; fail).
      destruct s as [st tr up er ln ig cur ai sp sr ac pr cn mt mr cl].
      unfold in_recording, context_open. simpl in *.
      repeat split; eauto. intros ctx [= <-]. discriminate. }
    rewrite (Hdrain _ Hm). now apply Hrender.
  - (* an audio block *)
    apply Hrender.
    destruct Hs as (Hst & Hsr & Hsp & Hcn & [node Hpr] & Hac & Hopen & Hmt).
    simpl. rewrite Hpr. unfold onaudioprocess. rewrite createBlob_frame, Hsp.
    unfold promise_then. rewrite Hcn. simpl.
    rewrite (drain_fulfilled app session [SendRealtimeInput (frame_blob input)])
      by (destruct s; simpl in *; now subst).
    destruct s as [st tr up er ln ig cur ai sp sr ac pr cn mt mr cl].
    unfold in_recording, context_open in *. simpl in *. subst.
    repeat split; eauto.
Qed.

Lemma recording_run (app : App) (env : environment) (stream : MediaStream)
    (session : nat) (evs : list event) :
  app = transcriber \/ app = noteTaker ->
  Forall recording_event evs ->
  forall s, in_recording stream session s ->
    in_recording stream session (run app env evs s).
Proof.
  intros Happ Hevs. induction Hevs as [|ev evs Hev _ IH]; intros s Hs; simpl;
    [exact Hs|].
  apply IH. now apply recording_goes_on.
Qed.

Lemma stop_recording (app : App) (env : environment) (stream : MediaStream)
    (session : nat) (s : state) :
  app = transcriber \/ app = noteTaker ->
  in_recording stream session s ->
  let s' := step app env s Click in
  status s' = IDLE
  /\ (sessionPromiseRef s' = None /\ streamRef s' = None
      /\ scriptProcessorRef s' = None /\ audioContextRef s' = None)
  /\ calls s'
     = calls s ++ map TrackStop (getTracks stream)
       ++ [ProcessorDisconnect; ContextClose; SessionClose session]
  /\ microtasks s' = [].
Proof.
  intros Happ (Hst & Hsr & Hsp & Hcn & [node Hpr] & [ctx Hac] & Hopen & Hmt). cbv zeta.
  unfold step, dispatch, click. rewrite Hst.
  destruct (stop_of app Happ s Hopen)
    as (Hst' & Hsp' & Hsr' & Hpr' & Hac' & Hcl & _ & Hmt' & _).
  assert (Hc : connections s !! 0%nat = Some (mkConnection (Fulfilled session) [] IDLE))
    by now rewrite Hcn.
  destruct (release_session_fulfilled s 0 _ session Hsp Hc eq_refl) as [_ Hq].
  rewrite Hmt in Hq. simpl in Hq. rewrite Hq in Hmt'.
  rewrite (drain_fulfilled app session [CloseSession]) by exact Hmt'.
  assert (Htd : teardown_calls s
                = map TrackStop (getTracks stream) ++ [ProcessorDisconnect; ContextClose]).
  { unfold teardown_calls. now rewrite Hsr, Hpr, Hac. }
  destruct (app_stop app s). simpl in *. subst.
  rewrite Htd, <- !app_assoc. simpl. repeat split; reflexivity.
Qed.

(** X10.  On the normal path nothing leaks.  In both variants, with a key:
    the button is clicked, the microphone granted, the connection opened and
    its promise fulfilled; then, after any messages and audio blocks, the
    button is clicked again.  The status is Idle, the four refs are null,
    and every track of the stream was stopped, the processor disconnected,
    the context closed and, last of all calls, the session closed. *)
Theorem session_releases_what_it_acquired (app : App) (key : jsstring)
    (stream : MediaStream) (session : nat) (during : list event) :
  app = transcriber \/ app = noteTaker ->
  truthy key = true ->
  Forall recording_event during ->
  let s := run app (ProcessEnv (Some key))
             ([Click; MediaGranted stream; Opened 0; Connected 0 session]
              ++ during ++ [Click]) initial in
  status s = IDLE
  /\ (sessionPromiseRef s = None /\ streamRef s = None
      /\ scriptProcessorRef s = None /\ audioContextRef s = None)
  /\ Forall (fun track => In (TrackStop track) (calls s)) (getTracks stream)
  /\ In ProcessorDisconnect (calls s)
  /\ In ContextClose (calls s)
  /\ (exists earlier, calls s = earlier ++ [SessionClose session])
  /\ microtasks s = [].
Proof.
  intros Happ Hkey Hduring. cbv zeta. unfold run.
  rewrite !fold_left_app.
  pose proof (recording_started app key stream session Happ Hkey) as H0.
  pose proof (recording_run app (ProcessEnv (Some key)) stream session during Happ
                Hduring _ H0) as H1.
  unfold run in H0, H1.
  destruct (stop_recording app (ProcessEnv (Some key)) stream session _ Happ H1)
    as (Hst & Hrefs & Hcalls & Hmt).
  match goal with
  | |- context [fold_left ?f [Click] ?x] =>
      change (fold_left f [Click] x) with (f x Click)
  end.
  split; [exact Hst|]. split; [exact Hrefs|].
  rewrite Hcalls.
  split; [|split; [|split; [|split; [|exact Hmt]]]].
  - apply Forall_forall. intros t Ht. apply list_elem_of_In in Ht.
    apply in_or_app. right. apply in_or_app. left. now apply in_map.
  - apply in_or_app. right. apply in_or_app. right. simpl. auto.
  - apply in_or_app. right. apply in_or_app. right. simpl. auto.
  - match goal with
    | |- exists earlier, ?c ++ _ = _ =>
        exists (c ++ map TrackStop (getTracks stream) ++ [ProcessorDisconnect; ContextClose])
    end.
    rewrite <- !app_assoc. reflexivity.
Qed.

Lemma session_releases_what_it_acquired_witness :
  (noteTaker = transcriber \/ noteTaker = noteTaker)
  /\ truthy (str "key") = true
  /\ Forall recording_event
       [Message 0 (fragment (str "Hi")); AudioProcess [half]; Message 0 turn_complete]
  /\ status (run noteTaker (ProcessEnv (Some (str "key")))
               ([Click; MediaGranted (mkStream [7%nat; 8%nat]); Opened 0; Connected 0 5]
                ++ [Message 0 (fragment (str "Hi")); AudioProcess [half];
                    Message 0 turn_complete]
                ++ [Click]) initial) = IDLE.
Proof.
  assert (Hd : Forall recording_event
                 [Message 0 (fragment (str "Hi")); AudioProcess [half];
                  Message 0 turn_complete]) by (repeat constructor).
  split; [now right|]. split; [reflexivity|]. split; [exact Hd|].
  exact (proj1 (session_releases_what_it_acquired noteTaker (str "key")
                  (mkStream [7%nat; 8%nat]) 5 _ (or_intror eq_refl) eq_refl Hd)).
Defined.

Lemma remote_close_never_tears_down_witness :
  (transcriber = transcriber \/ transcriber = noteTaker)
  /\ step transcriber with_key (recording transcriber) (Closed 0) = recording transcriber.
Proof.
  split; [now left|].
  apply (remote_close_never_tears_down transcriber with_key
           [Click; MediaGranted (mkStream [7%nat]); Opened 0; Connected 0 5; ContextRunning]
           0 (or_introl eq_refl)).
Defined.

Lemma trim_drops_blank_suffix (x w : jsstring) : blank w -> trim (x ++ w) = trim x.
Proof.
  intros Hw. destruct (trimStart_split x) as [v [Hx Hv]].
  destruct (trimStart x) as [|c r] eqn:Hts.
  - rewrite app_nil_r in Hx. subst v.
    rewrite (trim_blank x Hv). apply trim_blank. now apply blank_app.
  - unfold trim. rewrite Hts.
    rewrite Hx at 1. rewrite <- app_assoc, trimStart_blank by exact Hv.
    pose proof (trimStart_clean x) as Hc. rewrite Hts in Hc.
    rewrite trimStart_app by (assumption || discriminate).
    now apply trimEnd_blank.
Qed.

Lemma clean_app (a b : jsstring) : clean a -> clean b -> clean (a ++ b).
Proof.
  intros [Has Hae] [Hbs Hbe]. split.
  - destruct a; [exact Hbs | exact Has].
  - unfold ends_clean in *. rewrite rev_app_distr.
    destruct (rev b); [exact Hae | exact Hbe].
Qed.

Lemma notesGenerated_notes (c : jsstring) (s : state) :
  lectureNotes (notesGenerated (Some c) s) = trim (lectureNotes s ++ c)
  /\ isGeneratingNotes (notesGenerated (Some c) s) = false.
Proof.
  destruct s. unfold notesGenerated. simpl.
  split; [|reflexivity].
  rewrite app_assoc. apply trim_drops_blank_suffix, blank_paragraph.
Qed.

(** X11.  The separator that [generateNotes] appends after a response
    never stays in the notes: the notes become the trim of the previous
    notes followed by the response text, with no white space at either end.
    So when the notes and the responses have no white space at their ends,
    the notes after any number of responses are the previous notes followed
    directly by the response texts, with nothing between them. *)
Theorem notes_are_joined_without_separator (cs : list jsstring) (c : jsstring)
    (s : state) :
  (lectureNotes (notesGenerated (Some c) s) = trim (lectureNotes s ++ c)
   /\ clean (lectureNotes (notesGenerated (Some c) s)))
  /\ (clean (lectureNotes s) -> Forall clean cs ->
      lectureNotes (fold_left (fun s c => notesGenerated (Some c) s) cs s)
      = lectureNotes s ++ concat cs).
Proof.
  split.
  - destruct (notesGenerated_notes c s) as [-> _].
    split; [reflexivity|]. split; [apply trim_starts_clean | apply trim_ends_clean].
  - intros Hn Hcs. revert s Hn.
    induction Hcs as [|c' cs Hc _ IH]; intros s Hn; simpl.
    + now rewrite app_nil_r.
    + assert (Hstep : lectureNotes (notesGenerated (Some c') s) = lectureNotes s ++ c').
      { destruct (notesGenerated_notes c' s) as [-> _].
        destruct (clean_app _ _ Hn Hc). now apply trim_of_clean. }
      rewrite IH, Hstep, <- app_assoc; [reflexivity|].
      rewrite Hstep. now apply clean_app.
Qed.

Lemma notes_are_joined_without_separator_witness :
  clean (lectureNotes initial)
  /\ Forall clean [str "# One"; str "# Two"]
  /\ lectureNotes (fold_left (fun s c => notesGenerated (Some c) s)
                     [str "# One"; str "# Two"] initial)
     = str "# One# Two".
Proof.
  assert (Hn : clean (lectureNotes initial)) by (split; exact I).
  assert (Hcs : Forall clean [str "# One"; str "# Two"])
    by (repeat constructor).
  split; [exact Hn|]. split; [exact Hcs|].
  exact (proj2 (notes_are_joined_without_separator [str "# One"; str "# Two"] []
                  initial) Hn Hcs).
Defined.

(** X12.  A stop does not cancel a start that is waiting for the
    microphone.  When the microphone is granted after [stopTranscription],
    the transcriber keeps the stream and opens a connection although the
    status is Idle, and stops no track.  The note taker finds its client
    null: the error goes to [handleError], which stops every track of the
    stream just granted; no connection is opened and the refs are null. *)
Theorem grant_after_stop (seen : TranscriptionStatus) (stream : MediaStream)
    (s : state) :
  context_open s ->
  sessionPromiseRef s = None ->
  let t := Transcriber.resumeTranscription seen stream (Transcriber.stopTranscription s) in
  let n := NoteTaker.resumeTranscription seen stream (NoteTaker.stopTranscription s) in
  (status t = IDLE /\ streamRef t = Some stream
   /\ sessionPromiseRef t = Some (length (connections s))
   /\ calls t = calls s ++ teardown_calls s ++ [LiveConnect (length (connections s))])
  /\ (status n = IDLE /\ streamRef n = None /\ sessionPromiseRef n = None
      /\ connections n = connections s
      /\ exists e, calls n = calls s ++ teardown_calls s
                             ++ ConsoleError e :: map TrackStop (getTracks stream)).
Proof.
  intros Hopen Hsp. cbv zeta. split.
  - unfold Transcriber.resumeTranscription. cbv zeta.
    rewrite (Transcriber_stop_fields s Hopen), (release_session_none s Hsp).
    unfold connect, promise_then. simpl.
    rewrite lookup_app_r by lia. rewrite Nat.sub_diag. simpl.
    rewrite <- app_assoc. repeat split; reflexivity.
  - unfold NoteTaker.resumeTranscription. cbv zeta.
    rewrite (NoteTaker_stop_fields s Hopen), (release_session_none s Hsp). simpl.
    match goal with
    | |- context [NoteTaker.handleError ?e ?s0] =>
        assert (Hopen0 : context_open s0) by (intros ctx; discriminate);
        destruct (handleError_of noteTaker e s0 (or_intror eq_refl) Hopen0)
          as (_ & Hst & (Hsp' & Hsr & _) & Hcl & Hcn & _);
        simpl app_error in *
    end.
    split; [exact Hst|]. split; [exact Hsr|]. split; [exact Hsp'|].
    split; [rewrite Hcn; reflexivity|].
    eexists. rewrite Hcl. unfold teardown_calls at 2. simpl.
    rewrite <- app_assoc, app_nil_r. reflexivity.
Qed.

Lemma grant_after_stop_witness :
  context_open (run transcriber with_key [Click] initial)
  /\ sessionPromiseRef (run transcriber with_key [Click] initial) = None
  /\ streamRef (Transcriber.resumeTranscription IDLE (mkStream [7%nat])
                  (Transcriber.stopTranscription (run transcriber with_key [Click] initial)))
     = Some (mkStream [7%nat]).
Proof.
  assert (Ho : context_open (run transcriber with_key [Click] initial))
    by (intros ctx; discriminate).
  split; [exact Ho|]. split; [reflexivity|].
  exact (proj1 (proj2 (proj1
           (grant_after_stop IDLE (mkStream [7%nat])
              (run transcriber with_key [Click] initial) Ho eq_refl)))).
Defined.

Lemma status_setStatus (v : TranscriptionStatus) (s : state) :
  status (setStatus v s) = v.
Proof. now destruct s. Qed.

Lemma status_stop (app : App) (s : state) :
  app = transcriber \/ app = noteTaker -> status (app_stop app s) = IDLE.
Proof. intros [-> | ->]; apply status_setStatus. Qed.

Lemma status_error (app : App) (e : JsError) (s : state) :
  app = transcriber \/ app = noteTaker -> status (app_error app e s) = IDLE.
Proof. intros Happ. rewrite handleError_eq by exact Happ. now apply status_stop. Qed.

Lemma status_promise_then (p : nat) (r : reaction) (s : state) :
  status (promise_then p r s) = status s.
Proof.
  destruct s. unfold promise_then. simpl.
  destruct (_ !! p) as [c|]; [destruct (outcome c)|]; reflexivity.
Qed.

Lemma status_settle (p : nat) (v : settlement) (s : state) :
  status (settle p v s) = status s.
Proof.
  destruct s. unfold settle. simpl.
  destruct (_ !! p) as [c|]; [destruct (outcome c)|]; reflexivity.
Qed.

Lemma status_connect (seen : TranscriptionStatus) (s : state) :
  status (connect seen s) = status s.
Proof. unfold connect. cbv zeta. rewrite status_promise_then. now destruct s. Qed.

Lemma transcriber_dispatch_status (env : environment) (ev : event) (s : state) :
  status s <> ERROR -> status (dispatch transcriber env ev s) <> ERROR.
Proof.
  intros Hs.
  assert (Hidle : forall x, status x = IDLE -> status x <> ERROR)
    by (intros x ->; discriminate).
  destruct ev; simpl.
  - unfold click. destruct (status s) eqn:Hst; try (rewrite Hst; discriminate).
    + simpl app_start. unfold Transcriber.startTranscription. cbv zeta.
      destruct env as [|key]; cbv iota beta;
        [|match goal with |- context [if ?c then _ else _] => destruct c end];
        try (apply Hidle, (status_error transcriber); now left).
      destruct s; simpl; discriminate.
    + apply Hidle, (status_stop transcriber); now left.
    + congruence.
  - apply Hidle, (status_stop transcriber); now left.
  - destruct (mediaRequests s); [exact Hs|].
    unfold Transcriber.resumeTranscription. cbv zeta. rewrite status_connect.
    now destruct s.
  - destruct (mediaRequests s); [exact Hs|].
    apply Hidle, (status_error transcriber); now left.
  - destruct (connections s !! p); [|exact Hs].
    unfold onopen. cbv zeta. destruct s as [st tr up er ln ig cur ai sp sr ac pr cn mt mr cl].
    destruct sr; simpl; discriminate.
  - destruct (connections s !! p); [|exact Hs].
    destruct (message_keeps_resources transcriber m s (or_introl eq_refl)) as [Hst _].
    simpl in Hst. now rewrite Hst.
  - destruct (connections s !! p); [|exact Hs].
    apply Hidle, (status_error transcriber); now left.
  - destruct (connections s !! p); [|exact Hs].
    unfold Transcriber.onclose. destruct (_ && _); [|exact Hs].
    apply Hidle, (status_stop transcriber); now left.
  - now rewrite status_settle.
  - now rewrite status_settle.
  - destruct s as [st tr up er ln ig cur ai sp sr ac pr cn mt mr cl].
    destruct ac as [[rate [| |]]|]; exact Hs.
  - destruct (scriptProcessorRef s); [|exact Hs].
    unfold onaudioprocess. rewrite createBlob_frame.
    destruct (sessionPromiseRef s); [now rewrite status_promise_then | exact Hs].
Qed.

Lemma transcriber_jobs_status (fuel : nat) (s : state) :
  status s <> ERROR -> status (run_jobs transcriber fuel s) <> ERROR.
Proof.
  revert s. induction fuel as [|fuel IH]; intros s Hs; simpl; [exact Hs|].
  destruct (microtasks s) as [|j q]; [exact Hs|]. apply IH.
  destruct j as [[ |media| ] [ |session|e]]; simpl; try (now destruct s).
  rewrite (status_error transcriber) by now left. discriminate.
Qed.

(** X14.  The Error status needs a missing key.  Whatever happens, the
    status of the transcriber is never Error: errors lead it back to Idle.
    The status of the note taker is Error only in a deployment without a
    usable key. *)
Theorem error_status_needs_a_missing_key (env : environment) (evs : list event) :
  status (run transcriber env evs initial) <> ERROR
  /\ (status (run noteTaker env evs initial) = ERROR -> key_absent env).
Proof.
  split.
  - assert (H : forall s, status s <> ERROR -> status (run transcriber env evs s) <> ERROR).
    { induction evs as [|ev evs IH]; intros s Hs; simpl; [exact Hs|].
      apply IH. unfold step.
      assert (Hd : status (drain transcriber (dispatch transcriber env ev s)) <> ERROR)
        by (apply transcriber_jobs_status, transcriber_dispatch_status, Hs).
      now destruct (drain _ _). }
    apply H. discriminate.
  - assert (H0 : started_from_idle env initial).
    { repeat split; try constructor. discriminate. }
    destruct (started_run env noteTaker evs (or_intror eq_refl) initial settled_initial H0)
      as (_ & _ & _ & He).
    exact He.
Qed.

(** X15.  Every start erases the transcript and the live buffer, whether
    it goes on to ask for the microphone or fails for want of a key: in
    both variants, from every state whose context, if any, is open, the
    transcript shown after [startTranscription] is empty, and so are the
    live buffer and, until an error is reported, the error message. *)
Theorem start_erases_the_transcript (app : App) (seen : TranscriptionStatus)
    (env : environment) (s : state) :
  app = transcriber \/ app = noteTaker ->
  context_open s ->
  let s' := render (app_start app seen env s) in
  transcription s' = []
  /\ currentTranscriptionRef s' = []
  /\ updates s' = []
  /\ (~ key_absent env -> error s' = None /\ status s' = CONNECTING).
Proof.
  intros Happ Hopen. cbv zeta.
  assert (Hfold : forall cur ups (t : jsstring),
            fold_left (applyUpdater cur) (ups ++ [Replace []]) t = [])
    by (intros; now rewrite fold_left_app).
  destruct Happ as [-> | ->]; simpl app_start.
  - unfold Transcriber.startTranscription. cbv zeta.
    assert (Herr : forall e,
              let s' := render (Transcriber.handleError e
                          (set_currentTranscription []
                             (setTranscription (Replace [])
                                (setError None (setStatus CONNECTING s))))) in
              transcription s' = [] /\ currentTranscriptionRef s' = []
              /\ updates s' = []).
    { intros e. cbv zeta. unfold Transcriber.handleError. cbv zeta.
      rewrite Transcriber_stop_fields
        by (eapply context_open_frame; [|exact Hopen]; now destruct s).
      destruct s. simpl. rewrite app_nil_r, Hfold. auto. }
    destruct env as [|key]; cbv iota beta;
      [|match goal with |- context [if ?c then _ else _] => destruct c eqn:Hkey end].
    + destruct (Herr (AnError (str "process is not defined"))) as (? & ? & ?).
      do 3 (split; [assumption|]). intros Hk. exfalso. apply Hk. exact I.
    + destruct s. simpl. rewrite Hfold. repeat split; reflexivity.
    + destruct (Herr (AnError (str "API_KEY environment variable not set.")))
        as (? & ? & ?).
      do 3 (split; [assumption|]). intros Hk. exfalso. apply Hk. exact Hkey.
  - unfold NoteTaker.startTranscription. cbv zeta.
    match goal with |- context [if ?c then _ else _] => destruct c eqn:Hkey end.
    + destruct s. simpl. rewrite Hfold. repeat split; reflexivity.
    + destruct s. simpl. rewrite Hfold.
      do 3 (split; [reflexivity|]). intros Hk. exfalso. apply Hk.
      destruct env; simpl in *; auto.
Qed.

Lemma start_erases_the_transcript_witness :
  (transcriber = transcriber \/ transcriber = noteTaker)
  /\ (let s := fold_left (onmessage transcriber) (turn [str "old text"]) initial in
      context_open s
      /\ transcription s = str "old text" ++ paragraph
      /\ transcription (render (app_start transcriber IDLE with_key s)) = []).
Proof.
  split; [now left|]. cbv zeta.
  assert (Ho : context_open
                 (fold_left (onmessage transcriber) (turn [str "old text"]) initial))
    by (intros ctx; discriminate).
  split; [exact Ho|]. split; [reflexivity|].
  exact (proj1 (start_erases_the_transcript transcriber IDLE with_key _
                  (or_introl eq_refl) Ho)).
Defined.

(** X16.  Fragments are shown as they arrive: in both variants, from a
    state with no update pending, after any sequence of fragments the
    transcript is the previous transcript followed by the fragments in
    arrival order, the live buffer is the previous buffer followed by the
    same fragments, nothing is pending and no call has been made. *)
Theorem fragments_are_appended_in_order (app : App) (fs : list jsstring) (s : state) :
  app = transcriber \/ app = noteTaker ->
  updates s = [] ->
  let s' := fold_left (onmessage app) (map fragment fs) s in
  transcription s' = transcription s ++ concat fs
  /\ currentTranscriptionRef s' = currentTranscriptionRef s ++ concat fs
  /\ updates s' = []
  /\ calls s' = calls s.
Proof.
  intros Happ Hu. cbv zeta.
  destruct (fragments_view app fs s Happ Hu) as (Ht & Hc & Hu').
  repeat split; try assumption. now apply fragments_calls.
Qed.

Lemma fragments_are_appended_in_order_witness :
  (noteTaker = transcriber \/ noteTaker = noteTaker)
  /\ updates (recording noteTaker) = []
  /\ transcription (fold_left (onmessage noteTaker)
                      (map fragment [str "Hello "; str "wor"; str "ld"])
                      (recording noteTaker))
     = str "Hello world".
Proof.
  split; [now right|]. split; [reflexivity|].
  exact (proj1 (fragments_are_appended_in_order noteTaker
                  [str "Hello "; str "wor"; str "ld"] (recording noteTaker)
                  (or_intror eq_refl) eq_refl)).
Defined.

(** ** Audio blocks and the settlement of the session promise *)

Lemma run_rejected_jobs (app : App) (e : JsError) (rs : list reaction) :
  Forall (fun r => r <> ResumeStart) rs ->
  forall (fuel : nat) (s : state),
    microtasks s = map (fun r => Job r (Rejected e)) rs ->
    (length rs <= fuel)%nat ->
    run_jobs app fuel s = set_microtasks [] (do_calls (map (fun _ => Uncaught) rs) s).
Proof.
  induction 1 as [|r rs Hr Hrs IH]; intros fuel s Hm Hf.
  - simpl in Hm. rewrite (run_jobs_nil app fuel s Hm).
    destruct s. simpl in *. subst. now rewrite app_nil_r.
  - destruct fuel as [|fuel]; [simpl in Hf; lia|].
    simpl in Hm. rewrite (run_jobs_cons app fuel _ _ s Hm).
    assert (Hj : run_job app (Job r (Rejected e)) (set_microtasks (map (fun r => Job r (Rejected e)) rs) s)
                 = do_call Uncaught (set_microtasks (map (fun r => Job r (Rejected e)) rs) s)).
    { destruct r; try reflexivity. now elim Hr. }
    rewrite Hj. rewrite IH.
    + destruct s. simpl. now rewrite <- app_assoc.
    + now destruct s.
    + simpl in Hf. lia.
Qed.

Lemma rejected_with_frames_waiting (app : App) (env : environment) (p : nat)
    (e : JsError) (seen : TranscriptionStatus) (blobs : list Blob) (s : state) :
  app = transcriber \/ app = noteTaker ->
  context_open s ->
  awaiting_session p (ResumeStart :: map SendRealtimeInput blobs) seen s ->
  let s' := step app env s (ConnectFailed p e) in
  status s' = IDLE
  /\ sessionPromiseRef s' = None
  /\ calls s'
     = calls s ++ ConsoleError e :: teardown_calls s
       ++ map (fun _ => Uncaught) blobs ++ [Uncaught]
  /\ microtasks s' = [].
Proof.
  intros Happ Hopen (Hp & Hc & Hm & _). cbv zeta.
  pose proof (lookup_lt_Some _ _ _ Hc) as Hlt.
  unfold step, dispatch, settle. rewrite Hc. cbn [outcome reactions seenStatus].
  rewrite Hm. cbn [map List.app].
  set (s0 := set_connections _ s).
  set (q := map (fun r => Job r (Rejected e)) (map SendRealtimeInput blobs)).
  assert (Hs0 : sessionPromiseRef s0 = Some p
                /\ connections s0 !! p = Some (mkConnection (Rejected e) [] seen)
                /\ context_open s0
                /\ calls s0 = calls s /\ teardown_calls s0 = teardown_calls s).
  { subst s0. destruct s as [st tr up er ln ig cur ai sp sr ac pr cn mt mr cl].
    simpl in *. repeat split; auto. now apply list_lookup_insert_eq. }
  destruct Hs0 as (Hp0 & Hc0 & Hopen0 & Hcalls0 & Htd0).
  set (s1 := set_microtasks (Job ResumeStart (Rejected e) :: q) s0).
  unfold drain.
  assert (Hm1 : microtasks s1 = Job ResumeStart (Rejected e) :: q)
    by (subst s1; now destruct s0).
  rewrite Hm1.
  assert (Hlen : length q = length blobs) by (subst q; now rewrite !length_map).
  replace (2 * length (Job ResumeStart (Rejected e) :: q))%nat
    with (S (S (2 * length blobs)))%nat by (simpl; lia).
  rewrite (run_jobs_cons app _ _ q s1 Hm1). cbn [run_job].
  set (s2 := set_microtasks q s1).
  assert (Hs2 : sessionPromiseRef s2 = Some p
                /\ connections s2 !! p = Some (mkConnection (Rejected e) [] seen)
                /\ microtasks s2 = q /\ context_open s2
                /\ calls s2 = calls s /\ teardown_calls s2 = teardown_calls s).
  { subst s2 s1. destruct s0. simpl in *. repeat split; auto. }
  destruct Hs2 as (Hp2 & Hc2 & Hm2 & Hopen2 & Hcalls2 & Htd2).
  destruct (handleError_of app e s2 Happ Hopen2)
    as (Herr & Hst & (Hsp & Hsr & Hpr & Hac) & Hcl & Hcn & Hmt & _).
  assert (Hq : microtasks (app_error app e s2)
               = map (fun r => Job r (Rejected e))
                   (map SendRealtimeInput blobs ++ [CloseSession])).
  { rewrite Hmt. rewrite map_app. fold q. clear - Hp2 Hc2 Hm2.
    destruct s2 as [st tr up er ln ig cur ai sp sr ac pr cn mt mr cl].
    simpl in *. subst. unfold release_session, promise_then. simpl. now rewrite Hc2. }
  assert (Hrs : Forall (fun r => r <> ResumeStart)
                  (map SendRealtimeInput blobs ++ [CloseSession])).
  { apply Forall_app. split.
    - apply Forall_forall. intros r Hr. apply list_elem_of_In, in_map_iff in Hr.
      destruct Hr as (b & <- & _). discriminate.
    - repeat constructor. discriminate. }
  rewrite (run_rejected_jobs app e _ Hrs _ _ Hq).
  - destruct (app_error app e s2) as [st tr up er ln ig cur ai sp sr ac pr cn mt mr cl].
    simpl in *. subst. rewrite Hcalls2, Htd2.
    repeat split; try reflexivity.
    rewrite map_app, map_map. simpl. now rewrite <- !app_assoc.
  - rewrite length_app, length_map. simpl. lia.
Qed.

(** C9 as stated fails.  In either variant, a block received while the
    connection is being opened waits on the session promise; when the promise
    is then rejected the block is never sent: the calls made are the report
    of the error, the releases of the teardown and two unhandled rejections
    (the skipped send and the skipped close), and no [sendRealtimeInput]
    among them.  And a block that [onaudioprocess] receives after a stop,
    when the ref holds null, is dropped: the state is left as it was. *)
Lemma frame_is_lost_when_connect_fails :
  Forall (fun app =>
    let e := AnError (str "handshake failed") in
    let s := run app with_key [AudioProcess [half]; ConnectFailed 0 e] (opened app) in
    let stopped := run app with_key [Click] (recording app) in
    awaiting_session 0 [ResumeStart] IDLE (opened app)
    /\ calls s
       = [NewGoogleGenAI (str "key"); GetUserMedia; LiveConnect 0; ProcessorConnect;
          ConsoleError e; TrackStop 7; ProcessorDisconnect; ContextClose;
          Uncaught; Uncaught]
    /\ (forall session media, ~ In (SessionSend session media) (calls s))
    /\ microtasks s = []
    /\ sessionPromiseRef stopped = None
    /\ onaudioprocess [half] stopped = stopped
    /\ (forall session media, ~ In (SessionSend session media) (calls stopped)))
    [transcriber; noteTaker].
Proof.
  apply Forall_cons_2; [|apply Forall_cons_2; [|apply Forall_nil_2]]; cbv zeta.
  - split; [repeat split; try reflexivity; eexists; reflexivity|].
    split; [vm_compute; reflexivity|].
    split; [intros session media; vm_compute; intuition discriminate|].
    split; [vm_compute; reflexivity|].
    split; [vm_compute; reflexivity|].
    split; [vm_compute; reflexivity|].
    intros session media; vm_compute; intuition discriminate.
  - split; [repeat split; try reflexivity; eexists; reflexivity|].
    split; [vm_compute; reflexivity|].
    split; [intros session media; vm_compute; intuition discriminate|].
    split; [vm_compute; reflexivity|].
    split; [vm_compute; reflexivity|].
    split; [vm_compute; reflexivity|].
    intros session media; vm_compute; intuition discriminate.
Qed.

(** C9 (amended).  In either variant, what becomes of a block that
    [onaudioprocess] receives follows the session promise held in the ref.
    Take a state in which [startTranscription] awaits the promise, and the
    blocks received from there on.

    While the promise is pending a block makes no call and is not dropped:
    its send waits on the promise behind the reactions already waiting
    there.  When the promise is fulfilled the waiting sends run in the order
    they were attached and each block received afterwards is sent in turn,
    so that the sends made are those of all the blocks, each once, in the
    order the blocks were captured.

    When the promise is rejected instead, none of the blocks that wait is
    sent: the error is reported, the teardown runs, and every skipped send,
    like the skipped close, surfaces as an unhandled rejection.

    Once the ref holds null, after that teardown or after a stop, a block
    received is dropped and the state is left as it was. *)
Theorem frames_follow_the_session_promise (app : App) (env : environment)
    (p session : nat) (e : JsError) (seen : TranscriptionStatus)
    (before after : list (list spec_float)) (s : state) :
  app = transcriber \/ app = noteTaker ->
  context_open s ->
  awaiting_session p [ResumeStart] seen s ->
  let s1 := run app env (map AudioProcess before) s in
  let fulfilled := run app env (Connected p session :: map AudioProcess after) s1 in
  let rejected := step app env s1 (ConnectFailed p e) in
  let stopped := app_stop app s1 in
  (calls s1 = calls s
   /\ connections s1 !! p
      = Some (mkConnection Pending
                (ResumeStart
                 :: map (fun input => SendRealtimeInput (frame_blob input)) before)
                seen))
  /\ (calls fulfilled
      = calls s
        ++ map (fun input => SessionSend session (frame_blob input)) (before ++ after)
      /\ microtasks fulfilled = [])
  /\ (calls rejected
      = calls s ++ ConsoleError e :: teardown_calls s
        ++ map (fun _ => Uncaught) before ++ [Uncaught]
      /\ (forall k media, In (SessionSend k media) (calls rejected) ->
          In (SessionSend k media) (calls s))
      /\ microtasks rejected = []
      /\ sessionPromiseRef rejected = None
      /\ status rejected = IDLE)
  /\ (sessionPromiseRef stopped = None
      /\ forall input,
           onaudioprocess input stopped = stopped
           /\ onaudioprocess input rejected = rejected)
  /\ Forall (fun input => createBlob input = Some (frame_blob input)) (before ++ after).
Proof.
  intros Happ Hopen Hs. cbv zeta.
  destruct (frames_sent_once_fulfilled app env p session _ seen before after s Hs)
    as (Hc1 & Hcn1 & Hc2 & Hm2 & Hblobs).
  destruct (audio_run_while_pending app env p seen before _ s Hs) as [Hs1 _].
  destruct (audio_run_while_pending_refs app env p seen before _ s Hs) as (R1 & R2 & R3).
  cbn [List.app] in Hs1.
  rewrite <- (map_map frame_blob SendRealtimeInput) in Hs1.
  assert (Hopen1 : context_open (run app env (map AudioProcess before) s)).
  { intros ctx Hctx. apply Hopen. now rewrite <- R3. }
  assert (Htd : teardown_calls (run app env (map AudioProcess before) s)
                = teardown_calls s).
  { unfold teardown_calls. now rewrite R1, R2, R3. }
  destruct (rejected_with_frames_waiting app env p e seen _ _ Happ Hopen1 Hs1)
    as (Hst & Hsp & Hcl & Hmt).
  rewrite map_map in Hcl. rewrite Hc1, Htd in Hcl.
  destruct (stop_of app Happ _ Hopen1) as (_ & Hstop & _).
  split; [split; [exact Hc1|exact Hcn1]|].
  split; [split; [exact Hc2|exact Hm2]|].
  split; [|split; [|exact Hblobs]].
  - split; [exact Hcl|].
    split; [|split; [exact Hmt|split; [exact Hsp|exact Hst]]].
    intros k media. rewrite Hcl. intros Hin.
    apply in_app_or in Hin. destruct Hin as [Hin|Hin]; [exact Hin|exfalso].
    destruct Hin as [Hin|Hin]; [discriminate|].
    apply in_app_or in Hin. destruct Hin as [Hin|Hin].
    { unfold teardown_calls in Hin.
      repeat (apply in_app_or in Hin; destruct Hin as [Hin|Hin]).
      - destruct (streamRef s); [|destruct Hin].
        apply in_map_iff in Hin. destruct Hin as (? & ? & _). discriminate.
      - destruct (scriptProcessorRef s); simpl in Hin; intuition discriminate.
      - destruct (audioContextRef s); simpl in Hin; intuition discriminate. }
    apply in_app_or in Hin. destruct Hin as [Hin|Hin].
    + apply in_map_iff in Hin. destruct Hin as (? & ? & _). discriminate.
    + simpl in Hin. intuition discriminate.
  - split; [exact Hstop|]. intros input. unfold onaudioprocess.
    now rewrite createBlob_frame, Hstop, Hsp.
Qed.

Lemma frames_follow_the_session_promise_witness :
  (transcriber = transcriber \/ transcriber = noteTaker)
  /\ context_open (opened transcriber)
  /\ awaiting_session 0 [ResumeStart] IDLE (opened transcriber)
  /\ calls (run transcriber with_key (Connected 0 5 :: map AudioProcess [[minus_one]])
             (run transcriber with_key (map AudioProcess [[half]]) (opened transcriber)))
     = [NewGoogleGenAI (str "key"); GetUserMedia; LiveConnect 0; ProcessorConnect;
        SessionSend 5 (mkBlob (str "AEA=") (str "audio/pcm;rate=16000"));
        SessionSend 5 (mkBlob (str "AIA=") (str "audio/pcm;rate=16000"))]
  /\ calls (step transcriber with_key
              (run transcriber with_key (map AudioProcess [[half]]) (opened transcriber))
              (ConnectFailed 0 (AnError (str "handshake failed"))))
     = [NewGoogleGenAI (str "key"); GetUserMedia; LiveConnect 0; ProcessorConnect;
        ConsoleError (AnError (str "handshake failed"));
        TrackStop 7; ProcessorDisconnect; ContextClose; Uncaught; Uncaught].
Proof.
  assert (Ho : context_open (opened transcriber)).
  { intros ctx Hctx. vm_compute in Hctx. injection Hctx as <-. discriminate. }
  assert (Ha : awaiting_session 0 [ResumeStart] IDLE (opened transcriber)).
  { repeat split; try reflexivity. eexists. reflexivity. }
  split; [now left|]. split; [exact Ho|]. split; [exact Ha|].
  destruct (frames_follow_the_session_promise transcriber with_key 0 5
              (AnError (str "handshake failed")) IDLE [[half]] [[minus_one]]
              (opened transcriber) (or_introl eq_refl) Ho Ha)
    as (_ & (Hf & _) & (Hr & _) & _).
  split; [exact Hf|exact Hr].
Defined.
